(** * Ninite Pro Classic wrapper: configuration, argument composition,
      output patterns and streaming operations

    A shallow embedding of [classic/classic.go] (package [niniteclassic]).
    Strings are [string] (a Go string seen as its bytes), Go slices are
    lists, the machine [int] of the proxy port is a [Z], Go [error] values
    are an inductive type, and the subprocess together with the delivery
    channel is modelled by explicit state passing that records a trace of
    the externally visible events. *)

From Stdlib Require Import ZArith String Ascii List Bool Arith Lia DecimalString.
Import ListNotations.
Open Scope string_scope.
Open Scope list_scope.

(** ** Data model *)

(** The anonymous struct types of the fields [proxy], [proxyAuth] /
    [remoteAuth] and [freeze] of [Classic]. *)
Record proxy_t := { server : string; port : Z }.
Record auth_t := { username : string; password : string }.
Record freeze_t := { outputFilename : string; locales : list string }.

(** [type Classic struct]; the field [list] is written [list_] because
    [list] is the list type here. *)
Record Classic := {
  path : string;
  locale : string;
  proxy : proxy_t;
  proxyAuth : auth_t;
  selectedApps : list string;
  excludedApps : list string;
  remote : list string;
  remoteAuth : auth_t;
  disableShortcuts : bool;
  disableAutoUpdate : bool;
  allUsers : bool;
  cachePath : string;
  noCache : bool;
  cleanCache : bool;
  updateOnly : bool;
  uninstall : bool;
  freeze : freeze_t;
  list_ : bool
}.

(** Field assignments [c.f = v] on the receiver copy. *)
Definition with_locale (v : string) (c : Classic) : Classic :=
  {| path := path c; locale := v; proxy := proxy c; proxyAuth := proxyAuth c;
     selectedApps := selectedApps c; excludedApps := excludedApps c;
     remote := remote c; remoteAuth := remoteAuth c;
     disableShortcuts := disableShortcuts c; disableAutoUpdate := disableAutoUpdate c; allUsers := allUsers c;
     cachePath := cachePath c; noCache := noCache c; cleanCache := cleanCache c;
     updateOnly := updateOnly c; uninstall := uninstall c; freeze := freeze c; list_ := list_ c |}.
Definition with_proxy (v : proxy_t) (c : Classic) : Classic :=
  {| path := path c; locale := locale c; proxy := v; proxyAuth := proxyAuth c;
     selectedApps := selectedApps c; excludedApps := excludedApps c;
     remote := remote c; remoteAuth := remoteAuth c;
     disableShortcuts := disableShortcuts c; disableAutoUpdate := disableAutoUpdate c; allUsers := allUsers c;
     cachePath := cachePath c; noCache := noCache c; cleanCache := cleanCache c;
     updateOnly := updateOnly c; uninstall := uninstall c; freeze := freeze c; list_ := list_ c |}.
Definition with_proxyAuth (v : auth_t) (c : Classic) : Classic :=
  {| path := path c; locale := locale c; proxy := proxy c; proxyAuth := v;
     selectedApps := selectedApps c; excludedApps := excludedApps c;
     remote := remote c; remoteAuth := remoteAuth c;
     disableShortcuts := disableShortcuts c; disableAutoUpdate := disableAutoUpdate c; allUsers := allUsers c;
     cachePath := cachePath c; noCache := noCache c; cleanCache := cleanCache c;
     updateOnly := updateOnly c; uninstall := uninstall c; freeze := freeze c; list_ := list_ c |}.
Definition with_selectedApps (v : list string) (c : Classic) : Classic :=
  {| path := path c; locale := locale c; proxy := proxy c; proxyAuth := proxyAuth c;
     selectedApps := v; excludedApps := excludedApps c;
     remote := remote c; remoteAuth := remoteAuth c;
     disableShortcuts := disableShortcuts c; disableAutoUpdate := disableAutoUpdate c; allUsers := allUsers c;
     cachePath := cachePath c; noCache := noCache c; cleanCache := cleanCache c;
     updateOnly := updateOnly c; uninstall := uninstall c; freeze := freeze c; list_ := list_ c |}.
Definition with_excludedApps (v : list string) (c : Classic) : Classic :=
  {| path := path c; locale := locale c; proxy := proxy c; proxyAuth := proxyAuth c;
     selectedApps := selectedApps c; excludedApps := v;
     remote := remote c; remoteAuth := remoteAuth c;
     disableShortcuts := disableShortcuts c; disableAutoUpdate := disableAutoUpdate c; allUsers := allUsers c;
     cachePath := cachePath c; noCache := noCache c; cleanCache := cleanCache c;
     updateOnly := updateOnly c; uninstall := uninstall c; freeze := freeze c; list_ := list_ c |}.
Definition with_remote (v : list string) (c : Classic) : Classic :=
  {| path := path c; locale := locale c; proxy := proxy c; proxyAuth := proxyAuth c;
     selectedApps := selectedApps c; excludedApps := excludedApps c;
     remote := v; remoteAuth := remoteAuth c;
     disableShortcuts := disableShortcuts c; disableAutoUpdate := disableAutoUpdate c; allUsers := allUsers c;
     cachePath := cachePath c; noCache := noCache c; cleanCache := cleanCache c;
     updateOnly := updateOnly c; uninstall := uninstall c; freeze := freeze c; list_ := list_ c |}.
Definition with_remoteAuth (v : auth_t) (c : Classic) : Classic :=
  {| path := path c; locale := locale c; proxy := proxy c; proxyAuth := proxyAuth c;
     selectedApps := selectedApps c; excludedApps := excludedApps c;
     remote := remote c; remoteAuth := v;
     disableShortcuts := disableShortcuts c; disableAutoUpdate := disableAutoUpdate c; allUsers := allUsers c;
     cachePath := cachePath c; noCache := noCache c; cleanCache := cleanCache c;
     updateOnly := updateOnly c; uninstall := uninstall c; freeze := freeze c; list_ := list_ c |}.
Definition with_disableShortcuts (v : bool) (c : Classic) : Classic :=
  {| path := path c; locale := locale c; proxy := proxy c; proxyAuth := proxyAuth c;
     selectedApps := selectedApps c; excludedApps := excludedApps c;
     remote := remote c; remoteAuth := remoteAuth c;
     disableShortcuts := v; disableAutoUpdate := disableAutoUpdate c; allUsers := allUsers c;
     cachePath := cachePath c; noCache := noCache c; cleanCache := cleanCache c;
     updateOnly := updateOnly c; uninstall := uninstall c; freeze := freeze c; list_ := list_ c |}.
Definition with_disableAutoUpdate (v : bool) (c : Classic) : Classic :=
  {| path := path c; locale := locale c; proxy := proxy c; proxyAuth := proxyAuth c;
     selectedApps := selectedApps c; excludedApps := excludedApps c;
     remote := remote c; remoteAuth := remoteAuth c;
     disableShortcuts := disableShortcuts c; disableAutoUpdate := v; allUsers := allUsers c;
     cachePath := cachePath c; noCache := noCache c; cleanCache := cleanCache c;
     updateOnly := updateOnly c; uninstall := uninstall c; freeze := freeze c; list_ := list_ c |}.
Definition with_allUsers (v : bool) (c : Classic) : Classic :=
  {| path := path c; locale := locale c; proxy := proxy c; proxyAuth := proxyAuth c;
     selectedApps := selectedApps c; excludedApps := excludedApps c;
     remote := remote c; remoteAuth := remoteAuth c;
     disableShortcuts := disableShortcuts c; disableAutoUpdate := disableAutoUpdate c; allUsers := v;
     cachePath := cachePath c; noCache := noCache c; cleanCache := cleanCache c;
     updateOnly := updateOnly c; uninstall := uninstall c; freeze := freeze c; list_ := list_ c |}.
Definition with_cachePath (v : string) (c : Classic) : Classic :=
  {| path := path c; locale := locale c; proxy := proxy c; proxyAuth := proxyAuth c;
     selectedApps := selectedApps c; excludedApps := excludedApps c;
     remote := remote c; remoteAuth := remoteAuth c;
     disableShortcuts := disableShortcuts c; disableAutoUpdate := disableAutoUpdate c; allUsers := allUsers c;
     cachePath := v; noCache := noCache c; cleanCache := cleanCache c;
     updateOnly := updateOnly c; uninstall := uninstall c; freeze := freeze c; list_ := list_ c |}.
Definition with_noCache (v : bool) (c : Classic) : Classic :=
  {| path := path c; locale := locale c; proxy := proxy c; proxyAuth := proxyAuth c;
     selectedApps := selectedApps c; excludedApps := excludedApps c;
     remote := remote c; remoteAuth := remoteAuth c;
     disableShortcuts := disableShortcuts c; disableAutoUpdate := disableAutoUpdate c; allUsers := allUsers c;
     cachePath := cachePath c; noCache := v; cleanCache := cleanCache c;
     updateOnly := updateOnly c; uninstall := uninstall c; freeze := freeze c; list_ := list_ c |}.
Definition with_cleanCache (v : bool) (c : Classic) : Classic :=
  {| path := path c; locale := locale c; proxy := proxy c; proxyAuth := proxyAuth c;
     selectedApps := selectedApps c; excludedApps := excludedApps c;
     remote := remote c; remoteAuth := remoteAuth c;
     disableShortcuts := disableShortcuts c; disableAutoUpdate := disableAutoUpdate c; allUsers := allUsers c;
     cachePath := cachePath c; noCache := noCache c; cleanCache := v;
     updateOnly := updateOnly c; uninstall := uninstall c; freeze := freeze c; list_ := list_ c |}.
Definition with_updateOnly (v : bool) (c : Classic) : Classic :=
  {| path := path c; locale := locale c; proxy := proxy c; proxyAuth := proxyAuth c;
     selectedApps := selectedApps c; excludedApps := excludedApps c;
     remote := remote c; remoteAuth := remoteAuth c;
     disableShortcuts := disableShortcuts c; disableAutoUpdate := disableAutoUpdate c; allUsers := allUsers c;
     cachePath := cachePath c; noCache := noCache c; cleanCache := cleanCache c;
     updateOnly := v; uninstall := uninstall c; freeze := freeze c; list_ := list_ c |}.
Definition with_uninstall (v : bool) (c : Classic) : Classic :=
  {| path := path c; locale := locale c; proxy := proxy c; proxyAuth := proxyAuth c;
     selectedApps := selectedApps c; excludedApps := excludedApps c;
     remote := remote c; remoteAuth := remoteAuth c;
     disableShortcuts := disableShortcuts c; disableAutoUpdate := disableAutoUpdate c; allUsers := allUsers c;
     cachePath := cachePath c; noCache := noCache c; cleanCache := cleanCache c;
     updateOnly := updateOnly c; uninstall := v; freeze := freeze c; list_ := list_ c |}.
Definition with_freeze (v : freeze_t) (c : Classic) : Classic :=
  {| path := path c; locale := locale c; proxy := proxy c; proxyAuth := proxyAuth c;
     selectedApps := selectedApps c; excludedApps := excludedApps c;
     remote := remote c; remoteAuth := remoteAuth c;
     disableShortcuts := disableShortcuts c; disableAutoUpdate := disableAutoUpdate c; allUsers := allUsers c;
     cachePath := cachePath c; noCache := noCache c; cleanCache := cleanCache c;
     updateOnly := updateOnly c; uninstall := uninstall c; freeze := v; list_ := list_ c |}.
Definition with_list (v : bool) (c : Classic) : Classic :=
  {| path := path c; locale := locale c; proxy := proxy c; proxyAuth := proxyAuth c;
     selectedApps := selectedApps c; excludedApps := excludedApps c;
     remote := remote c; remoteAuth := remoteAuth c;
     disableShortcuts := disableShortcuts c; disableAutoUpdate := disableAutoUpdate c; allUsers := allUsers c;
     cachePath := cachePath c; noCache := noCache c; cleanCache := cleanCache c;
     updateOnly := updateOnly c; uninstall := uninstall c; freeze := freeze c; list_ := v |}.

(** The zero value [Classic{}] and the literal [Classic{path: path}] that
    [NewClassic] returns once [os.Stat] has found a file at [path]. *)
Definition Classic_zero : Classic :=
  {| path := ""; locale := ""; proxy := {| server := ""; port := 0%Z |};
     proxyAuth := {| username := ""; password := "" |};
     selectedApps := []; excludedApps := []; remote := [];
     remoteAuth := {| username := ""; password := "" |};
     disableShortcuts := false; disableAutoUpdate := false; allUsers := false;
     cachePath := ""; noCache := false; cleanCache := false;
     updateOnly := false; uninstall := false;
     freeze := {| outputFilename := ""; locales := [] |}; list_ := false |}.

Definition Classic_at (p : string) : Classic :=
  {| path := p; locale := ""; proxy := {| server := ""; port := 0%Z |};
     proxyAuth := {| username := ""; password := "" |};
     selectedApps := []; excludedApps := []; remote := [];
     remoteAuth := {| username := ""; password := "" |};
     disableShortcuts := false; disableAutoUpdate := false; allUsers := false;
     cachePath := ""; noCache := false; cleanCache := false;
     updateOnly := false; uninstall := false;
     freeze := {| outputFilename := ""; locales := [] |}; list_ := false |}.

(** A Go function either returns or panics. *)
Inductive outcome (A : Type) : Type :=
| Returns (a : A)
| Panics (msg : string).
Arguments Returns {A} a.
Arguments Panics {A} msg.

(** ** Attributes: the chained, copy-returning setters *)

Definition Locale (code : string) (c : Classic) : Classic := with_locale code c.

Definition Proxy (srv : string) (prt : Z) (c : Classic) : Classic :=
  with_proxy {| server := srv; port := prt |} c.

Definition ProxyAuth (user pass : string) (c : Classic) : Classic :=
  with_proxyAuth {| username := user; password := pass |} c.

Definition Select (apps : list string) (c : Classic) : Classic :=
  with_selectedApps apps c.

Definition Exclude (apps : list string) (c : Classic) : Classic :=
  with_excludedApps apps c.

(** [Prefer]: the guard [if true] is kept as the source writes it. *)
Definition Prefer (c : Classic) : outcome Classic :=
  if true then Panics "Unimplemented" else Returns Classic_zero.

Definition Remote (machines : list string) (c : Classic) : Classic :=
  with_remote machines c.

Definition RemoteAuth (user pass : string) (c : Classic) : Classic :=
  with_remoteAuth {| username := user; password := pass |} c.

Definition DisableShortcuts (c : Classic) : Classic := with_disableShortcuts true c.
Definition DisableAutoUpdate (c : Classic) : Classic := with_disableAutoUpdate true c.
Definition AllUsers (c : Classic) : Classic := with_allUsers true c.
Definition CachePath (p : string) (c : Classic) : Classic := with_cachePath p c.
Definition NoCache (c : Classic) : Classic := with_noCache true c.
Definition CleanCache (c : Classic) : Classic := with_cleanCache true c.

(** Configurations a caller can hold: the fields are unexported, so a
    [Classic] outside the package is [Classic{path: p}] from [NewClassic]
    followed by setter calls. *)
Inductive Built : Classic -> Prop :=
| Built_new p : Built (Classic_at p)
| Built_Locale code c : Built c -> Built (Locale code c)
| Built_Proxy srv prt c : Built c -> Built (Proxy srv prt c)
| Built_ProxyAuth u p c : Built c -> Built (ProxyAuth u p c)
| Built_Select apps c : Built c -> Built (Select apps c)
| Built_Exclude apps c : Built c -> Built (Exclude apps c)
| Built_Remote ms c : Built c -> Built (Remote ms c)
| Built_RemoteAuth u p c : Built c -> Built (RemoteAuth u p c)
| Built_DisableShortcuts c : Built c -> Built (DisableShortcuts c)
| Built_DisableAutoUpdate c : Built c -> Built (DisableAutoUpdate c)
| Built_AllUsers c : Built c -> Built (AllUsers c)
| Built_CachePath p c : Built c -> Built (CachePath p c)
| Built_NoCache c : Built c -> Built (NoCache c)
| Built_CleanCache c : Built c -> Built (CleanCache c).

(** ** Argument composition *)

(** [strconv.Itoa]: decimal digits, a leading minus sign for negatives. *)
Definition Itoa (i : Z) : string := NilZero.string_of_int (Z.to_int i).

(** [s != ""] and [len(l) > 0]. *)
Definition nonempty (s : string) : bool := negb (String.eqb s "").
Definition len_pos {A : Type} (l : list A) : bool := (0 <? List.length l)%nat.

(** [composeArgs]: [args] is rebound by each [append], in source order. *)
Definition composeArgs (c : Classic) : list string :=
  let args := ["/silent"; "."] in
  let args := if nonempty (locale c)
              then args ++ ["/locale"; locale c] else args in
  let args := if nonempty (server (proxy c)) && negb (port (proxy c) =? 0)%Z
              then args ++ ["/proxy"; server (proxy c); Itoa (port (proxy c))]
              else args in
  let args := if nonempty (username (proxyAuth c)) && nonempty (password (proxyAuth c))
              then args ++ ["/proxyauth"; username (proxyAuth c); password (proxyAuth c)]
              else args in
  let args := if len_pos (selectedApps c)
              then (args ++ ["/select"]) ++ selectedApps c else args in
  let args := if len_pos (excludedApps c)
              then (args ++ ["/exclude"]) ++ excludedApps c else args in
  let args := if len_pos (remote c)
              then (args ++ ["/remote"]) ++ remote c else args in
  let args := if nonempty (username (remoteAuth c)) && nonempty (password (remoteAuth c))
              then args ++ ["/remoteauth"; username (remoteAuth c); password (remoteAuth c)]
              else args in
  let args := if disableShortcuts c then args ++ ["/disableshortcuts"] else args in
  let args := if disableAutoUpdate c then args ++ ["/disableautoupdate"] else args in
  let args := if allUsers c then args ++ ["/allusers"] else args in
  let args := if nonempty (cachePath c)
              then args ++ ["/cachepath"; cachePath c] else args in
  let args := if noCache c then args ++ ["/nocache"] else args in
  let args := if cleanCache c then args ++ ["/cleancache"] else args in
  let args := if updateOnly c then args ++ ["/updateonly"] else args in
  let args := if nonempty (outputFilename (freeze c))
              then
                let args := args ++ ["/freeze"] in
                let args := if len_pos (locales (freeze c))
                            then args ++ locales (freeze c) else args in
                args ++ [outputFilename (freeze c)]
              else args in
  let args := if list_ c then args ++ ["/list"; "versions"] else args in
  args.

(** *** The ordering as the specification words it

    One segment per option, empty when the option is not set, concatenated
    in the documented order. *)

Definition flag_if (b : bool) (seg : list string) : list string :=
  if b then seg else [].

Definition seg_silent : list string := ["/silent"; "."].
Definition seg_locale c := flag_if (nonempty (locale c)) ["/locale"; locale c].
Definition proxy_set c : bool :=
  nonempty (server (proxy c)) && negb (port (proxy c) =? 0)%Z.
Definition seg_proxy c :=
  flag_if (proxy_set c) ["/proxy"; server (proxy c); Itoa (port (proxy c))].
Definition auth_set (a : auth_t) : bool :=
  nonempty (username a) && nonempty (password a).
Definition seg_proxyauth c :=
  flag_if (auth_set (proxyAuth c))
          ["/proxyauth"; username (proxyAuth c); password (proxyAuth c)].
Definition seg_select c := flag_if (len_pos (selectedApps c)) ("/select" :: selectedApps c).
Definition seg_exclude c := flag_if (len_pos (excludedApps c)) ("/exclude" :: excludedApps c).
Definition seg_remote c := flag_if (len_pos (remote c)) ("/remote" :: remote c).
Definition seg_remoteauth c :=
  flag_if (auth_set (remoteAuth c))
          ["/remoteauth"; username (remoteAuth c); password (remoteAuth c)].
Definition seg_disableshortcuts c := flag_if (disableShortcuts c) ["/disableshortcuts"].
Definition seg_disableautoupdate c := flag_if (disableAutoUpdate c) ["/disableautoupdate"].
Definition seg_allusers c := flag_if (allUsers c) ["/allusers"].
Definition seg_cachepath c := flag_if (nonempty (cachePath c)) ["/cachepath"; cachePath c].
Definition seg_nocache c := flag_if (noCache c) ["/nocache"].
Definition seg_cleancache c := flag_if (cleanCache c) ["/cleancache"].
Definition seg_updateonly c := flag_if (updateOnly c) ["/updateonly"].
Definition seg_freeze c :=
  flag_if (nonempty (outputFilename (freeze c)))
          ("/freeze" :: locales (freeze c) ++ [outputFilename (freeze c)]).
Definition seg_list c := flag_if (list_ c) ["/list"; "versions"].

Definition attribute_flags (c : Classic) : list string :=
  seg_locale c ++ seg_proxy c ++ seg_proxyauth c ++ seg_select c ++
  seg_exclude c ++ seg_remote c ++ seg_remoteauth c ++
  seg_disableshortcuts c ++ seg_disableautoupdate c ++ seg_allusers c ++
  seg_cachepath c ++ seg_nocache c ++ seg_cleancache c.

Definition verb_flags (c : Classic) : list string :=
  seg_updateonly c ++ seg_freeze c ++ seg_list c.

Definition ordered_args (c : Classic) : list string :=
  seg_silent ++ attribute_flags c ++ verb_flags c.

(** ** Regular expressions

    The three patterns use anchors, single-byte classes, greedy repetition
    of a class, greedy optional groups, concatenation and capturing groups.
    [regexp.MustCompile] uses Perl syntax without flags: [^] and [$] match
    only at the beginning and at the end of the text, [.] excludes the
    newline, [\s] is the class of tab, newline, form feed, carriage return
    and space, and [FindStringSubmatch] returns the leftmost match, choosing
    among the matches at that position the one a backtracking search finds
    first.  The matcher below is that backtracking search, written in
    continuation-passing style.  It works on bytes: every class of the three
    patterns either lists ASCII bytes or excludes ASCII bytes, so a
    multi-byte rune is matched exactly when each of its bytes is. *)

Definition tab : ascii := "009"%char.
Definition lf : ascii := "010"%char.
Definition ff : ascii := "012"%char.
Definition cr : ascii := "013"%char.

Definition one_of (l : list ascii) (c : ascii) : bool := existsb (Ascii.eqb c) l.
Definition none_of (l : list ascii) (c : ascii) : bool := negb (one_of l c).

(** [\s] and [.] *)
Definition space : ascii -> bool := one_of [tab; lf; ff; cr; " "%char].
Definition dot : ascii -> bool := none_of [lf].

Inductive regex : Type :=
| Bol                                     (* ^ *)
| Eot                                     (* $ *)
| Chr (cls : ascii -> bool)               (* one byte of the class *)
| Rep (min : nat) (cls : ascii -> bool)   (* cls* (min = 0), cls+ (min = 1) *)
| Cat (r1 r2 : regex)
| Opt (r : regex)                         (* (?:r)? and (r)? *)
| Cap (n : nat) (r : regex).              (* the n-th capturing group *)

Declare Scope regex_scope.
Delimit Scope regex_scope with re.
Bind Scope regex_scope with regex.
Notation "a ;; b" := (Cat a b) (at level 61, right associativity) : regex_scope.

(** The text of each group, [""] while the group has not taken part. *)
Definition groups := list string.

Fixpoint set_group (n : nat) (w : string) (g : groups) {struct g} : groups :=
  match g, n with
  | [], _ => []
  | _ :: g', O => w :: g'
  | x :: g', S n' => x :: set_group n' w g'
  end.

Definition group (n : nat) (g : groups) : string := nth n g "".

(** Greedy repetition: take a byte of the class while there is one, and go
    on with the rest of the pattern from the longest run first. *)
Fixpoint rep (cls : ascii -> bool) (min : nat) (pos : nat) (s : string)
         (k : nat -> string -> option groups) : option groups :=
  let stop := if (min =? 0)%nat then k pos s else None in
  match s with
  | String c s' =>
      if cls c then
        match rep cls (Nat.pred min) (S pos) s' k with
        | Some m => Some m
        | None => stop
        end
      else stop
  | EmptyString => stop
  end.

(** [run r pos s g k]: match [r] at offset [pos], where [s] is the text
    from [pos] on, then continue with [k]; [None] when every alternative
    fails. *)
Fixpoint run (r : regex) (pos : nat) (s : string) (g : groups)
         (k : nat -> string -> groups -> option groups) : option groups :=
  match r with
  | Bol => if (pos =? 0)%nat then k pos s g else None
  | Eot => match s with EmptyString => k pos s g | String _ _ => None end
  | Chr cls =>
      match s with
      | String c s' => if cls c then k (S pos) s' g else None
      | EmptyString => None
      end
  | Rep min cls => rep cls min pos s (fun pos' s' => k pos' s' g)
  | Cat r1 r2 => run r1 pos s g (fun pos' s' g' => run r2 pos' s' g' k)
  | Opt r1 =>
      match run r1 pos s g k with
      | Some m => Some m
      | None => k pos s g
      end
  | Cap n r1 =>
      run r1 pos s g
          (fun pos' s' g' => k pos' s' (set_group n (substring 0 (pos' - pos) s) g'))
  end.

(** A compiled pattern: the expression and its number of groups. *)
Record Regexp := { expr : regex; numSubexp : nat }.

Definition accept : nat -> string -> groups -> option groups :=
  fun _ _ g => Some g.

(** The leftmost match: try each offset in turn; group 0 is the match. *)
Fixpoint search (re : Regexp) (pos : nat) (s : string) : option groups :=
  match run (Cap 0 (expr re)) pos s (repeat "" (S (numSubexp re))) accept with
  | Some m => Some m
  | None =>
      match s with
      | String _ s' => search re (S pos) s'
      | EmptyString => None
      end
  end.

(** [FindStringSubmatch]: the texts of the match and of the groups, or the
    nil slice. *)
Definition FindStringSubmatch (re : Regexp) (s : string) : list string :=
  match search re 0 s with
  | Some m => m
  | None => []
  end.

(** [^\s*(?P<app>[^:\r\n]+)\s+:\s+(?P<status>[^\r\n\(\)]+)(?:\s+\((?P<reason>.+)\))?$] *)
Definition statusMatch : Regexp :=
  {| expr := (Bol ;; Rep 0 space ;;
              Cap 1 (Rep 1 (none_of [":"; cr; lf]%char)) ;;
              Rep 1 space ;; Chr (one_of [":"%char]) ;; Rep 1 space ;;
              Cap 2 (Rep 1 (none_of [cr; lf; "("; ")"]%char)) ;;
              Opt (Rep 1 space ;; Chr (one_of ["("%char]) ;;
                   Cap 3 (Rep 1 dot) ;; Chr (one_of [")"%char])) ;;
              Eot)%re;
     numSubexp := 3 |}.

(** [^\s*(?P<app>[^:\r\n]+)\s+:\s+(?P<type>[\*\(])?(?P<version>[^\r\n\(\)]+)\)?$] *)
Definition versionMatch : Regexp :=
  {| expr := (Bol ;; Rep 0 space ;;
              Cap 1 (Rep 1 (none_of [":"; cr; lf]%char)) ;;
              Rep 1 space ;; Chr (one_of [":"%char]) ;; Rep 1 space ;;
              Opt (Cap 2 (Chr (one_of ["*"; "("]%char))) ;;
              Cap 3 (Rep 1 (none_of [cr; lf; "("; ")"]%char)) ;;
              Opt (Chr (one_of [")"%char])) ;;
              Eot)%re;
     numSubexp := 3 |}.

(** [^\s*(?P<app>[^:\r\n]+)\s+:\s+(?P<status>[^\r\n\(\)\-]+)(?:\s+-\s+(?P<version>.+))?$] *)
Definition auditMatch : Regexp :=
  {| expr := (Bol ;; Rep 0 space ;;
              Cap 1 (Rep 1 (none_of [":"; cr; lf]%char)) ;;
              Rep 1 space ;; Chr (one_of [":"%char]) ;; Rep 1 space ;;
              Cap 2 (Rep 1 (none_of [cr; lf; "("; ")"; "-"]%char)) ;;
              Opt (Rep 1 space ;; Chr (one_of ["-"%char]) ;; Rep 1 space ;;
                   Cap 3 (Rep 1 dot)) ;;
              Eot)%re;
     numSubexp := 3 |}.

(** ** Records delivered to the caller *)

Module Status.
Record t := { App : string; Status : string; Reason : string; Version : string }.
End Status.

Module AppVersion.
Record t := { App : string; Version : string;
              CurrentVersion : bool; AlternateVersion : bool }.
End AppVersion.

Module AppAudit.
Record t := { App : string; Version : string; Status : string; Installed : bool }.
End AppAudit.

(** The body of each read loop after a line was read: match the line and
    build the record to send, or send nothing.  [m[i]] is [group i m]. *)

(** [UpdateOnly] and [Uninstall] *)
Definition statusOf (line : string) : option Status.t :=
  let m := FindStringSubmatch statusMatch line in
  if len_pos m
  then Some {| Status.App := group 1 m; Status.Status := group 2 m;
               Status.Reason := group 3 m; Status.Version := "" |}
  else None.

(** [Freeze] *)
Definition frozenOf (line : string) : option Status.t :=
  let m := FindStringSubmatch statusMatch line in
  if len_pos m
  then Some {| Status.App := group 1 m; Status.Status := "";
               Status.Reason := ""; Status.Version := group 2 m |}
  else None.

(** [List] *)
Definition versionOf (line : string) : option AppVersion.t :=
  let m := FindStringSubmatch versionMatch line in
  if len_pos m
  then
    let currentVersion := String.eqb (group 2 m) "*" in
    let alternateVersion :=
      if String.eqb (group 2 m) "*" then false else String.eqb (group 2 m) "(" in
    Some {| AppVersion.App := group 1 m; AppVersion.Version := group 3 m;
            AppVersion.CurrentVersion := currentVersion;
            AppVersion.AlternateVersion := alternateVersion |}
  else None.

(** [Audit] *)
Definition auditOf (line : string) : option AppAudit.t :=
  let m := FindStringSubmatch auditMatch line in
  if len_pos m
  then
    let installed := (0 <? String.length (group 3 m))%nat in
    Some {| AppAudit.App := group 1 m; AppAudit.Status := group 2 m;
            AppAudit.Version := group 3 m; AppAudit.Installed := installed |}
  else None.

(** ** The subprocess and the streaming operations *)

(** Go [error] values: the sentinel [io.EOF], an [errors.New] value, the
    [*exec.ExitError] of [cmd.Wait], and any other error of the operating
    system or of a library. *)
Inductive error : Type :=
| io_EOF
| errors_New (text : string)
| ExitError (code : Z)
| SysError (msg : string).

Definition is_EOF (e : error) : bool :=
  match e with io_EOF => true | _ => false end.

(** What a started command will do: the bytes on its standard output and
    the error the pipe reports once they are read ([io.EOF] at the end of
    the stream), what [ioutil.ReadAll(stderr)] returns, and what [cmd.Wait]
    returns. *)
Record Cmd := {
  stdout : string;
  stdout_err : error;
  stderr : string;
  stderr_err : option error;
  wait_err : option error
}.

(** The operating system seen from [start]: a path and arguments give a
    started command, or the error of [StdoutPipe], [StderrPipe] or
    [cmd.Start]. *)
Definition Launcher := string -> list string -> error + Cmd.

(** Externally visible steps, in the order they happen.  A send on the
    channel is recorded when the consumer takes the record. *)
Inductive event (R : Type) : Type :=
| Command (path : string) (args : list string)
| Send (r : R)
| Close
| ReadAllStderr
| Wait.
Arguments Command {R} path args.
Arguments Send {R} r.
Arguments Close {R}.
Arguments ReadAllStderr {R}.
Arguments Wait {R}.

(** [start]: compose the arguments and launch. *)
Definition start (c : Classic) (os : Launcher) : error + Cmd :=
  let args := composeArgs c in
  os (path c) args.

(** [bufio.Reader.ReadString('\n')] on the unread bytes [buf]: the bytes up
    to and including the first newline and a nil error, or, when there is no
    newline left, all the bytes together with the error of the stream. *)
Fixpoint cut_line (s : string) : option (string * string) :=
  match s with
  | EmptyString => None
  | String c s' =>
      if Ascii.eqb c lf then Some (String c EmptyString, s')
      else match cut_line s' with
           | Some (line, rest) => Some (String c line, rest)
           | None => None
           end
  end.

Definition ReadString (buf : string) (end_err : error)
  : string * option error * string :=
  match cut_line buf with
  | Some (line, rest) => (line, None, rest)
  | None => (buf, Some end_err, EmptyString)
  end.

(** How the [for] loop is left: by [break] after closing the channel, or by
    [return err]. *)
Inductive loop_exit : Type :=
| Break
| Return (err : error).

(** The read loop; [conv] is the body that matches a line and builds the
    record.  One unit of [fuel] per iteration; [None] when it runs out. *)
Fixpoint readLoop {R : Type} (conv : string -> option R) (fuel : nat)
         (buf : string) (end_err : error) : option (list (event R) * loop_exit) :=
  match fuel with
  | O => None
  | S fuel' =>
      let '(line, err, rest) := ReadString buf end_err in
      match err with
      | Some e =>
          if is_EOF e then Some ([Close], Break)
          else Some ([], Return e)
      | None =>
          let sent := match conv line with
                      | Some r => [Send r]
                      | None => []
                      end in
          match readLoop conv fuel' rest end_err with
          | Some (tr, ex) => Some (sent ++ tr, ex)
          | None => None
          end
      end
  end.

(** After the loop: drain standard error, wait, and choose the error. *)
Definition finish (cmd : Cmd) : option error :=
  let stderrResult :=
    match stderr_err cmd with
    | None => if (0 <? String.length (stderr cmd))%nat
              then Some (errors_New (stderr cmd)) else None
    | Some _ => None
    end in
  match wait_err cmd with
  | Some err => Some err
  | None =>
      match stderrResult with
      | Some e => Some e
      | None => None
      end
  end.

(** The body shared, word for word, by the five verbs once the verb field
    is set: [start], the deferred [cmd.Wait], the read loop, then [finish].
    The result is the trace and the returned error. *)
Definition stream {R : Type} (conv : string -> option R) (c : Classic)
           (os : Launcher) : option (list (event R) * option error) :=
  let launched := Command (path c) (composeArgs c) in
  match start c os with
  | inl err => Some ([launched], Some err)
  | inr cmd =>
      match readLoop conv (S (String.length (stdout cmd))) (stdout cmd) (stdout_err cmd) with
      | None => None
      | Some (tr, Return err) => Some (launched :: tr ++ [Wait], Some err)
      | Some (tr, Break) =>
          Some (launched :: tr ++ [ReadAllStderr; Wait; Wait], finish cmd)
      end
  end.

Definition UpdateOnly (c : Classic) (os : Launcher) :=
  stream statusOf (with_updateOnly true c) os.

Definition Uninstall (c : Classic) (os : Launcher) :=
  stream statusOf (with_uninstall true c) os.

Definition Freeze (output : string) (locs : list string) (c : Classic) (os : Launcher) :=
  stream frozenOf (with_freeze {| outputFilename := output; locales := locs |} c) os.

Definition List_ (c : Classic) (os : Launcher) :=
  stream versionOf (with_list true c) os.

Definition Audit (c : Classic) (os : Launcher) :=
  stream auditOf (with_list true c) os.

(** The records sent, in order, and whether the channel was closed. *)
Fixpoint sent {R : Type} (tr : list (event R)) : list R :=
  match tr with
  | [] => []
  | Send r :: tr' => r :: sent tr'
  | _ :: tr' => sent tr'
  end.

Definition is_Close {R : Type} (e : event R) : bool :=
  match e with Close => true | _ => false end.

Definition closed {R : Type} (tr : list (event R)) : bool := existsb is_Close tr.

Definition is_ReadAllStderr {R : Type} (e : event R) : bool :=
  match e with ReadAllStderr => true | _ => false end.

(** Whether standard error was read. *)
Definition drained {R : Type} (tr : list (event R)) : bool :=
  existsb is_ReadAllStderr tr.

(** ** Notions used to state the properties *)

(** Every byte of [s] is in the class [p]. *)
Fixpoint all_bytes (p : ascii -> bool) (s : string) : bool :=
  match s with
  | EmptyString => true
  | String c s' => p c && all_bytes p s'
  end.

(** The last byte of [s] is a newline. *)
Fixpoint ends_with_lf (s : string) : bool :=
  match s with
  | EmptyString => false
  | String c EmptyString => Ascii.eqb c lf
  | String _ s' => ends_with_lf s'
  end.

(** What is known of the rest of a pattern: nothing, that it fails on every
    text ending in a newline, or that it fails on those and on the empty
    text. *)
Inductive level : Type := Unknown | FailsLf | FailsLfEmpty.

Definition rejected (l : level) (s : string) : bool :=
  match l with
  | Unknown => false
  | FailsLf => ends_with_lf s
  | FailsLfEmpty => ends_with_lf s || String.eqb s ""
  end.

Definition weaker (a b : level) : level :=
  match a, b with
  | Unknown, _ | _, Unknown => Unknown
  | FailsLf, _ | _, FailsLf => FailsLf
  | FailsLfEmpty, FailsLfEmpty => FailsLfEmpty
  end.

(** [before r l]: what is known of [r] followed by a rest of level [l]. *)
Fixpoint before (r : regex) (l : level) : level :=
  match r with
  | Bol => l
  | Eot => match l with FailsLfEmpty => FailsLfEmpty | _ => FailsLf end
  | Chr cls =>
      if cls lf
      then match l with FailsLfEmpty => FailsLfEmpty | _ => Unknown end
      else match l with Unknown => Unknown | _ => FailsLfEmpty end
  | Rep min cls =>
      if cls lf
      then match l with FailsLfEmpty => FailsLfEmpty | _ => Unknown end
      else match l with
           | Unknown => Unknown
           | _ => if (min =? 0)%nat then l else FailsLfEmpty
           end
  | Cat r1 r2 => before r1 (before r2 l)
  | Opt r1 => weaker (before r1 l) l
  | Cap _ r1 => before r1 l
  end.

(** A continuation of level [l] fails on every text [l] rejects. *)
Definition fails_at (l : level) (k : nat -> string -> groups -> option groups) : Prop :=
  forall pos s g, rejected l s = true -> k pos s g = None.

(** [Keeps I r]: matching [r] keeps the invariant [I] of the groups; a
    group around a class, repeated or not, may rely on its text being made
    of bytes of the class. *)
Inductive Keeps (I : groups -> Prop) : regex -> Prop :=
| Keeps_Bol : Keeps I Bol
| Keeps_Eot : Keeps I Eot
| Keeps_Chr cls : Keeps I (Chr cls)
| Keeps_Rep min cls : Keeps I (Rep min cls)
| Keeps_Cat r1 r2 : Keeps I r1 -> Keeps I r2 -> Keeps I (Cat r1 r2)
| Keeps_Opt r : Keeps I r -> Keeps I (Opt r)
| Keeps_Cap n r :
    Keeps I r -> (forall g w, I g -> I (set_group n w g)) -> Keeps I (Cap n r)
| Keeps_Cap_Rep n min cls :
    (forall g w, I g -> all_bytes cls w = true -> I (set_group n w g)) ->
    Keeps I (Cap n (Rep min cls))
| Keeps_Cap_Chr n cls :
    (forall g c, I g -> cls c = true -> I (set_group n (String c "") g)) ->
    Keeps I (Cap n (Chr cls)).

(** The successive results of [ReadString] that end in a newline, in
    stream order, and the records the loop body builds from them. *)
Fixpoint chunks (fuel : nat) (buf : string) : list string :=
  match fuel with
  | O => []
  | S fuel' =>
      match cut_line buf with
      | Some (line, rest) => line :: chunks fuel' rest
      | None => []
      end
  end.

Definition complete_lines (buf : string) : list string :=
  chunks (S (String.length buf)) buf.

Fixpoint records {R : Type} (conv : string -> option R) (ls : list string) : list R :=
  match ls with
  | [] => []
  | l :: ls' =>
      match conv l with
      | Some r => r :: records conv ls'
      | None => records conv ls'
      end
  end.

(** The error [finish] is documented to choose: the error of [cmd.Wait]
    first, else the text of standard error when there is some. *)
Definition exit_then_stderr (cmd : Cmd) : option error :=
  match wait_err cmd with
  | Some e => Some e
  | None =>
      match stderr_err cmd, stderr cmd with
      | None, String _ _ => Some (errors_New (stderr cmd))
      | _, _ => None
      end
  end.

(** ** Further notions: construction, setter chains, verbs as values *)

(** [NewClassic].  [Stat p] is [os.Stat(p)] followed by [fi.IsDir()]: the
    error, or whether [p] is a directory; [Join] is [filepath.Join].  The
    function calls itself on a directory, one unit of [fuel] per call. *)
Section NewClassic.
Variable Stat : string -> error + bool.
Variable Join : string -> string -> string.

Fixpoint NewClassic (fuel : nat) (p : string) : option (Classic * option error) :=
  match fuel with
  | O => None
  | S fuel' =>
      match Stat p with
      | inl err => Some (Classic_zero, Some err)
      | inr isDir =>
          if isDir then NewClassic fuel' (Join p "NinitePro.exe")
          else Some (Classic_at p, None)
      end
  end.

(** The path looked at by the [n]-th nested call. *)
Fixpoint descend (n : nat) (p : string) : string :=
  match n with
  | O => p
  | S n' => descend n' (Join p "NinitePro.exe")
  end.
End NewClassic.

(** [Chain c0 c]: [c] is [c0] after any number of setter calls. *)
Inductive Chain (c0 : Classic) : Classic -> Prop :=
| Chain_here : Chain c0 c0
| Chain_Locale code c : Chain c0 c -> Chain c0 (Locale code c)
| Chain_Proxy srv prt c : Chain c0 c -> Chain c0 (Proxy srv prt c)
| Chain_ProxyAuth u p c : Chain c0 c -> Chain c0 (ProxyAuth u p c)
| Chain_Select apps c : Chain c0 c -> Chain c0 (Select apps c)
| Chain_Exclude apps c : Chain c0 c -> Chain c0 (Exclude apps c)
| Chain_Remote ms c : Chain c0 c -> Chain c0 (Remote ms c)
| Chain_RemoteAuth u p c : Chain c0 c -> Chain c0 (RemoteAuth u p c)
| Chain_DisableShortcuts c : Chain c0 c -> Chain c0 (DisableShortcuts c)
| Chain_DisableAutoUpdate c : Chain c0 c -> Chain c0 (DisableAutoUpdate c)
| Chain_AllUsers c : Chain c0 c -> Chain c0 (AllUsers c)
| Chain_CachePath p c : Chain c0 c -> Chain c0 (CachePath p c)
| Chain_NoCache c : Chain c0 c -> Chain c0 (NoCache c)
| Chain_CleanCache c : Chain c0 c -> Chain c0 (CleanCache c).

(** The five verbs as values, the receiver copy each one launches with, and
    its run with the records of the trace forgotten, so that one statement
    can range over all of them. *)
Inductive verb : Type :=
| VUpdateOnly
| VUninstall
| VFreeze (output : string) (locs : list string)
| VList
| VAudit.

Definition prepared (v : verb) (c : Classic) : Classic :=
  match v with
  | VUpdateOnly => with_updateOnly true c
  | VUninstall => with_uninstall true c
  | VFreeze output locs =>
      with_freeze {| outputFilename := output; locales := locs |} c
  | VList | VAudit => with_list true c
  end.

Definition erase {R : Type} (e : event R) : event unit :=
  match e with
  | Command p a => Command p a
  | Send _ => Send tt
  | Close => Close
  | ReadAllStderr => ReadAllStderr
  | Wait => Wait
  end.

Definition forget {R : Type} (o : option (list (event R) * option error))
  : option (list (event unit) * option error) :=
  match o with
  | Some (tr, ret) => Some (map erase tr, ret)
  | None => None
  end.

Definition run_verb (v : verb) (c : Classic) (os : Launcher)
  : option (list (event unit) * option error) :=
  match v with
  | VUpdateOnly => forget (UpdateOnly c os)
  | VUninstall => forget (Uninstall c os)
  | VFreeze output locs => forget (Freeze output locs c os)
  | VList => forget (List_ c os)
  | VAudit => forget (Audit c os)
  end.

(** How many times the channel is closed. *)
Definition closes {R : Type} (tr : list (event R)) : nat :=
  List.length (filter is_Close tr).

Definition is_Wait {R : Type} (e : event R) : bool :=
  match e with Wait => true | _ => false end.

(** How many times [cmd.Wait] is called. *)
Definition waits {R : Type} (tr : list (event R)) : nat :=
  List.length (filter is_Wait tr).

(** Some byte of [s] is in the class [p]. *)
Fixpoint has_byte (p : ascii -> bool) (s : string) : bool :=
  match s with
  | EmptyString => false
  | String c s' => p c || has_byte p s'
  end.

(** [Triple I r J]: when the groups satisfy [I] before [r] matches, they
    satisfy [J] after it; the text of a group around a class is made of
    bytes of the class, at least [min] of them under a repetition. *)
Inductive Triple : (groups -> Prop) -> regex -> (groups -> Prop) -> Prop :=
| Triple_Bol I : Triple I Bol I
| Triple_Eot I : Triple I Eot I
| Triple_Chr I cls : Triple I (Chr cls) I
| Triple_Rep I min cls : Triple I (Rep min cls) I
| Triple_Cat I M J r1 r2 :
    Triple I r1 M -> Triple M r2 J -> Triple I (Cat r1 r2) J
| Triple_Opt I J r :
    Triple I r J -> (forall g, I g -> J g) -> Triple I (Opt r) J
| Triple_Cap I M J n r :
    Triple I r M -> (forall g w, M g -> J (set_group n w g)) ->
    Triple I (Cap n r) J
| Triple_Cap_Rep I J n min cls :
    (forall g w, I g -> all_bytes cls w = true -> min <= String.length w ->
                 J (set_group n w g)) ->
    Triple I (Cap n (Rep min cls)) J
| Triple_Cap_Chr I J n cls :
    (forall g c, I g -> cls c = true -> J (set_group n (String c "") g)) ->
    Triple I (Cap n (Chr cls)) J.

(** [Takes p r]: every match of [r] consumes a byte of the class [p]. *)
Inductive Takes (p : ascii -> bool) : regex -> Prop :=
| Takes_Chr cls :
    (forall c, cls c = true -> p c = true) -> Takes p (Chr cls)
| Takes_Cat_l r1 r2 : Takes p r1 -> Takes p (Cat r1 r2)
| Takes_Cat_r r1 r2 : Takes p r2 -> Takes p (Cat r1 r2)
| Takes_Cap n r : Takes p r -> Takes p (Cap n r).

(** The bytes a group of the three patterns may hold. *)
Definition app_text (w : string) : Prop :=
  all_bytes (none_of [":"; cr; lf]%char) w = true /\ w <> "".
Definition plain_text (w : string) : Prop :=
  all_bytes (none_of [cr; lf; "("; ")"]%char) w = true /\ w <> "".
Definition audit_text (w : string) : Prop :=
  all_bytes (none_of [cr; lf; "("; ")"; "-"]%char) w = true /\ w <> "".

(** The result of a match holds four texts, those of the groups 1, 2 and 3
    satisfying [P1], [P2] and [P3]. *)
Definition groups_hold (P1 P2 P3 : string -> Prop) (g : groups) : Prop :=
  List.length g = 4 /\ P1 (group 1 g) /\ P2 (group 2 g) /\ P3 (group 3 g).

Definition any_text (w : string) : Prop := True.
Definition no_lf (w : string) : Prop := all_bytes dot w = true.
Definition marker_text (w : string) : Prop := w = "" \/ w = "*" \/ w = "(".

(** * Properties *)

(** ** Argument composition *)

Lemma app_flag_if (b : bool) (args seg : list string) :
  (if b then args ++ seg else args) = args ++ flag_if b seg.
Proof. destruct b; simpl; [reflexivity | now rewrite app_nil_r]. Qed.

Lemma app_flag_if_list (b : bool) (args : list string) f l :
  (if b then (args ++ [f]) ++ l else args) = args ++ flag_if b (f :: l).
Proof. destruct b; simpl; [now rewrite <- app_assoc | now rewrite app_nil_r]. Qed.

Lemma app_flag_if_freeze (b : bool) (args : list string) f l o :
  (if b then ((args ++ [f]) ++ l) ++ [o] else args)
  = args ++ flag_if b (f :: l ++ [o]).
Proof. destruct b; simpl; [now rewrite <- !app_assoc | now rewrite app_nil_r]. Qed.

Lemma len_pos_locales_app (args l : list string) :
  (if len_pos l then args ++ l else args) = args ++ l.
Proof. destruct l; simpl; [now rewrite app_nil_r | reflexivity]. Qed.

Lemma composeArgs_ordered (c : Classic) : composeArgs c = ordered_args c.
Proof.
  unfold composeArgs, ordered_args, attribute_flags, verb_flags.
  unfold seg_silent, seg_locale, seg_proxy, seg_proxyauth, seg_select,
    seg_exclude, seg_remote, seg_remoteauth, seg_disableshortcuts,
    seg_disableautoupdate, seg_allusers, seg_cachepath, seg_nocache,
    seg_cleancache, seg_updateonly, seg_freeze, seg_list, proxy_set, auth_set.
  cbv zeta.
  rewrite len_pos_locales_app.
  repeat first [ rewrite app_flag_if_freeze | rewrite app_flag_if_list
               | rewrite app_flag_if ].
  repeat rewrite <- app_assoc.
  reflexivity.
Qed.

Lemma nonempty_true (s : string) : nonempty s = true <-> s <> "".
Proof.
  unfold nonempty. rewrite negb_true_iff.
  destruct (String.eqb_spec s ""); split; congruence.
Qed.

Lemma proxy_set_iff (c : Classic) :
  proxy_set c = true <-> server (proxy c) <> "" /\ port (proxy c) <> 0%Z.
Proof.
  unfold proxy_set.
  rewrite andb_true_iff, nonempty_true, negb_true_iff, Z.eqb_neq.
  reflexivity.
Qed.

(** C1: [composeArgs] yields the silent-mode flag, then the flags of the
    attributes that are set in the order locale, proxy, proxy credentials,
    selected apps, excluded apps, remote targets, remote credentials,
    disable-shortcuts, disable-auto-update, all-users, cache path, no-cache,
    clean-cache, then the verb flags update-only, freeze (locales, then the
    output filename) and list, whatever subset of options is set; the proxy
    flag with its two values is present exactly when the server is not
    empty and the port is not zero. *)
Theorem composeArgs_fixed_order (c : Classic) :
  composeArgs c =
    ["/silent"; "."] ++
    seg_locale c ++ seg_proxy c ++ seg_proxyauth c ++ seg_select c ++
    seg_exclude c ++ seg_remote c ++ seg_remoteauth c ++
    seg_disableshortcuts c ++ seg_disableautoupdate c ++ seg_allusers c ++
    seg_cachepath c ++ seg_nocache c ++ seg_cleancache c ++
    seg_updateonly c ++ seg_freeze c ++ seg_list c
  /\ (seg_proxy c = ["/proxy"; server (proxy c); Itoa (port (proxy c))]
      <-> server (proxy c) <> "" /\ port (proxy c) <> 0%Z)
  /\ (seg_proxy c = [] <-> ~ (server (proxy c) <> "" /\ port (proxy c) <> 0%Z))
  /\ (seg_freeze c = "/freeze" :: locales (freeze c) ++ [outputFilename (freeze c)]
      <-> outputFilename (freeze c) <> "").
Proof.
  split; [| split; [| split]].
  - rewrite composeArgs_ordered.
    unfold ordered_args, attribute_flags, verb_flags, seg_silent.
    now repeat rewrite <- app_assoc.
  - rewrite <- proxy_set_iff. unfold seg_proxy.
    destruct (proxy_set c); simpl; split; congruence.
  - rewrite <- proxy_set_iff. unfold seg_proxy.
    destruct (proxy_set c); simpl; split; congruence.
  - rewrite <- nonempty_true. unfold seg_freeze.
    destruct (nonempty (outputFilename (freeze c))); simpl; split; congruence.
Qed.

(** A configuration with every option set, and one with a proxy server but
    no port. *)
Example composeArgs_all_set :
  composeArgs
    {| path := "NinitePro.exe"; locale := "en-US";
       proxy := {| server := "proxy.lan"; port := 3128 |};
       proxyAuth := {| username := "pu"; password := "pp" |};
       selectedApps := ["7-Zip"; "Chrome"]; excludedApps := ["Java"];
       remote := ["pc1"; "file:hosts.txt"];
       remoteAuth := {| username := "ru"; password := "rp" |};
       disableShortcuts := true; disableAutoUpdate := true; allUsers := true;
       cachePath := "C:\cache"; noCache := true; cleanCache := true;
       updateOnly := true; uninstall := true;
       freeze := {| outputFilename := "out.exe"; locales := ["de"; "fr"] |};
       list_ := true |}
  = ["/silent"; "."; "/locale"; "en-US"; "/proxy"; "proxy.lan"; "3128";
     "/proxyauth"; "pu"; "pp"; "/select"; "7-Zip"; "Chrome";
     "/exclude"; "Java"; "/remote"; "pc1"; "file:hosts.txt";
     "/remoteauth"; "ru"; "rp"; "/disableshortcuts"; "/disableautoupdate";
     "/allusers"; "/cachepath"; "C:\cache"; "/nocache"; "/cleancache";
     "/updateonly"; "/freeze"; "de"; "fr"; "out.exe"; "/list"; "versions"].
Proof. reflexivity. Qed.

Example composeArgs_proxy_without_port :
  composeArgs (Locale "de" (Proxy "proxy.lan" 0 (Classic_at "NinitePro.exe")))
  = ["/silent"; "."; "/locale"; "de"].
Proof. reflexivity. Qed.

(** C10: [Prefer] panics with the message "Unimplemented" on every
    receiver and returns no configuration. *)
Theorem Prefer_always_panics (c : Classic) :
  Prefer c = Panics "Unimplemented" /\ forall c', Prefer c <> Returns c'.
Proof. split; [reflexivity | intros c' H; discriminate H]. Qed.

(** No setter touches a verb field. *)
Lemma Built_verbs_unset (c : Classic) :
  Built c ->
  updateOnly c = false /\ uninstall c = false /\
  outputFilename (freeze c) = "" /\ list_ c = false.
Proof. induction 1; simpl; auto. Qed.

Lemma Built_verb_flags_nil (c : Classic) : Built c -> verb_flags c = [].
Proof.
  intros H. destruct (Built_verbs_unset c H) as (Hu & _ & Hf & Hl).
  unfold verb_flags, seg_updateonly, seg_freeze, seg_list.
  now rewrite Hu, Hf, Hl.
Qed.

Lemma composeArgs_with_uninstall (b : bool) (c : Classic) :
  composeArgs (with_uninstall b c) = composeArgs c.
Proof. reflexivity. Qed.

(** ** The matcher on texts that end in a newline *)

Lemma ends_with_lf_cons (c : ascii) (s : string) :
  ends_with_lf (String c s) = true ->
  (s = "" /\ c = lf) \/ ends_with_lf s = true.
Proof.
  simpl. destruct s as [| d s'].
  - intros H. left. split; [reflexivity | now apply Ascii.eqb_eq].
  - intros H. now right.
Qed.

Lemma ends_with_lf_tail (cls : ascii -> bool) (c : ascii) (s : string) :
  cls lf = false -> cls c = true ->
  ends_with_lf (String c s) = true -> ends_with_lf s = true.
Proof.
  intros Hlf Hc H. destruct (ends_with_lf_cons c s H) as [[_ ->] | H']; congruence.
Qed.

Lemma rejected_tail (c : ascii) (s : string) :
  rejected FailsLfEmpty (String c s) = true -> rejected FailsLfEmpty s = true.
Proof.
  simpl. rewrite orb_false_r. intros H.
  destruct (ends_with_lf_cons c s H) as [[-> _] | ->]; reflexivity.
Qed.

Lemma rejected_weaker (a b : level) (s : string) :
  rejected (weaker a b) s = true -> rejected a s = true /\ rejected b s = true.
Proof.
  destruct a, b; simpl; try discriminate; intros H; rewrite ?H; auto;
    split; auto; apply orb_true_iff; now left.
Qed.

Lemma rep_fails_lf (cls : ascii -> bool) (k : nat -> string -> option groups) :
  cls lf = false ->
  (forall pos s, ends_with_lf s = true -> k pos s = None) ->
  forall s min pos, ends_with_lf s = true -> rep cls min pos s k = None.
Proof.
  intros Hlf Hk. induction s as [| c s IH]; intros min pos Hs.
  - discriminate Hs.
  - cbn [rep]. rewrite (Hk pos _ Hs).
    destruct (cls c) eqn:Hc.
    + rewrite IH by (eapply ends_with_lf_tail; eauto).
      now destruct (min =? 0)%nat.
    + now destruct (min =? 0)%nat.
Qed.

Lemma rep_fails_all (cls : ascii -> bool) (k : nat -> string -> option groups) :
  (forall pos s, rejected FailsLfEmpty s = true -> k pos s = None) ->
  forall s min pos, rejected FailsLfEmpty s = true -> rep cls min pos s k = None.
Proof.
  intros Hk. induction s as [| c s IH]; intros min pos Hs.
  - cbn [rep]. rewrite (Hk pos _ Hs). now destruct (min =? 0)%nat.
  - cbn [rep]. rewrite (Hk pos _ Hs).
    rewrite IH by (eapply rejected_tail; eauto).
    destruct (cls c); now destruct (min =? 0)%nat.
Qed.

Lemma rep_needs_byte (cls : ascii -> bool) (k : nat -> string -> option groups)
      (min pos : nat) :
  (min =? 0)%nat = false -> rep cls min pos "" k = None.
Proof. intros H. cbn [rep]. now rewrite H. Qed.

(** [before] is sound: a pattern followed by a rest of level [l] fails on
    the texts that [before r l] rejects. *)
Lemma before_sound (r : regex) :
  forall l k, fails_at l k -> fails_at (before r l) (fun pos s g => run r pos s g k).
Proof.
  induction r as [| | cls | min cls | r1 IH1 r2 IH2 | r1 IH1 | n r1 IH1];
    intros l k Hk pos s g Hs; cbn [run before] in *.
  - destruct (pos =? 0)%nat; [now apply Hk | reflexivity].
  - destruct s as [| c s]; [| reflexivity].
    destruct l; simpl in Hs; try discriminate. now apply Hk.
  - destruct s as [| c s].
    + reflexivity.
    + destruct (cls c) eqn:Hc; [| reflexivity].
      destruct (cls lf) eqn:Hlf.
      * destruct l; try discriminate Hs.
        apply Hk. now apply rejected_tail with c.
      * destruct l; try discriminate Hs; simpl in Hs; rewrite orb_false_r in Hs;
          apply Hk; simpl;
          rewrite (ends_with_lf_tail cls c s Hlf Hc Hs); reflexivity.
  - destruct (cls lf) eqn:Hlf.
    + destruct l; try discriminate Hs.
      apply rep_fails_all; [| assumption]. intros; now apply Hk.
    + destruct l; try discriminate Hs.
      * destruct (min =? 0)%nat eqn:Hm.
        -- apply rep_fails_lf; [assumption | intros; now apply Hk | assumption].
        -- simpl in Hs. apply orb_true_iff in Hs. destruct Hs as [Hs | Hs].
           ++ apply rep_fails_lf; [assumption | intros; now apply Hk | assumption].
           ++ apply String.eqb_eq in Hs. subst s. now apply rep_needs_byte.
      * destruct (min =? 0)%nat eqn:Hm.
        -- apply rep_fails_all; [| assumption]. intros; now apply Hk.
        -- simpl in Hs. apply orb_true_iff in Hs. destruct Hs as [Hs | Hs].
           ++ apply rep_fails_lf; [assumption | | assumption].
              intros; apply Hk; simpl; apply orb_true_iff; now left.
           ++ apply String.eqb_eq in Hs. subst s. now apply rep_needs_byte.
  - exact (IH1 _ _ (IH2 _ _ Hk) pos s g Hs).
  - apply rejected_weaker in Hs. destruct Hs as [H1 H2].
    rewrite (IH1 _ _ Hk pos s g H1). now apply Hk.
  - refine (IH1 l (fun pos' s' g' => k pos' s' _) _ pos s g Hs).
    intros pos' s' g' Hs'. now apply Hk.
Qed.

(** A pattern whose level is [FailsLfEmpty] finds nothing in a text that
    ends in a newline. *)
Lemma search_none (re : Regexp) :
  before (Cap 0 (expr re)) Unknown = FailsLfEmpty ->
  forall s pos, rejected FailsLfEmpty s = true -> search re pos s = None.
Proof.
  intros Hre. induction s as [| c s IH]; intros pos Hs; cbn [search].
  - pose proof (before_sound (Cap 0 (expr re)) Unknown accept) as H.
    rewrite Hre in H. rewrite H; [reflexivity | now intros ? ? ? ? | assumption].
  - pose proof (before_sound (Cap 0 (expr re)) Unknown accept) as H.
    rewrite Hre in H. rewrite H; [| now intros ? ? ? ? | assumption].
    apply IH. now apply rejected_tail with c.
Qed.

Lemma FindStringSubmatch_lf (re : Regexp) (line : string) :
  before (Cap 0 (expr re)) Unknown = FailsLfEmpty ->
  ends_with_lf line = true -> FindStringSubmatch re line = [].
Proof.
  intros Hre Hl. unfold FindStringSubmatch.
  rewrite (search_none re Hre); [reflexivity |].
  simpl. now rewrite Hl.
Qed.

(** None of the four loop bodies builds a record from a line that still
    carries its newline. *)
Lemma statusOf_lf (line : string) : ends_with_lf line = true -> statusOf line = None.
Proof.
  intros H. unfold statusOf. now rewrite FindStringSubmatch_lf.
Qed.

Lemma frozenOf_lf (line : string) : ends_with_lf line = true -> frozenOf line = None.
Proof.
  intros H. unfold frozenOf. now rewrite FindStringSubmatch_lf.
Qed.

Lemma versionOf_lf (line : string) : ends_with_lf line = true -> versionOf line = None.
Proof.
  intros H. unfold versionOf. now rewrite FindStringSubmatch_lf.
Qed.

Lemma auditOf_lf (line : string) : ends_with_lf line = true -> auditOf line = None.
Proof.
  intros H. unfold auditOf. now rewrite FindStringSubmatch_lf.
Qed.

(** ** What the groups hold *)

Lemma rep_inv (cls : ascii -> bool) (k : nat -> string -> option groups) (m : groups) :
  forall s min pos,
    rep cls min pos s k = Some m ->
    exists w s', s = (w ++ s')%string /\ all_bytes cls w = true /\
                 k (pos + String.length w) s' = Some m.
Proof.
  induction s as [| c s IH]; intros min pos H; cbn [rep] in H.
  - exists "", "". rewrite Nat.add_0_r.
    destruct (min =? 0)%nat; [auto | discriminate].
  - assert (Hstop : (if (min =? 0)%nat then k pos (String c s) else None) = Some m ->
                    exists w s', String c s = (w ++ s')%string /\ all_bytes cls w = true /\
                                 k (pos + String.length w) s' = Some m).
    { intros Hs. exists "", (String c s). rewrite Nat.add_0_r.
      destruct (min =? 0)%nat; [auto | discriminate]. }
    destruct (cls c) eqn:Hc; [| auto].
    destruct (rep cls (Nat.pred min) (S pos) s k) as [m' |] eqn:Hr; [| auto].
    injection H as ->.
    destruct (IH _ _ Hr) as (w & s' & -> & Hw & Hk).
    exists (String c w), s'. cbn [append all_bytes String.length].
    rewrite Hc, Hw, Nat.add_succ_r. auto.
Qed.

Lemma substring_prefix (w s : string) : substring 0 (String.length w) (w ++ s)%string = w.
Proof.
  induction w as [| c w IH]; simpl.
  - now destruct s.
  - now rewrite IH.
Qed.

Lemma group_set_group_other (i n : nat) (w : string) (g : groups) :
  i <> n -> group i (set_group n w g) = group i g.
Proof.
  unfold group. revert i n. induction g as [| x g IH]; intros i n Hin.
  - reflexivity.
  - destruct n, i; simpl; try congruence. apply IH. congruence.
Qed.

Lemma group_set_group_same (n : nat) (w : string) (g : groups) :
  group n (set_group n w g) = w \/ set_group n w g = g.
Proof.
  unfold group. revert n. induction g as [| x g IH]; intros n.
  - now right.
  - destruct n; simpl; [now left |].
    destruct (IH n) as [H | H]; [now left | right; now rewrite H].
Qed.

(** [Keeps] is sound: when a match succeeds the continuation was entered
    with groups that satisfy the invariant. *)
Lemma Keeps_sound (I : groups -> Prop) (r : regex) :
  Keeps I r ->
  forall pos s g k m,
    I g -> run r pos s g k = Some m ->
    exists pos' s' g', I g' /\ k pos' s' g' = Some m.
Proof.
  induction 1 as [| | cls | min cls | r1 r2 _ IH1 _ IH2 | r1 _ IH1
                  | n r1 _ IH1 Hset | n min cls Hset | n cls Hset];
    intros pos s g k m Hg Hrun; cbn [run] in Hrun.
  - destruct (pos =? 0)%nat; [eauto | discriminate].
  - destruct s; [eauto | discriminate].
  - destruct s as [| c s]; [discriminate |].
    destruct (cls c); [eauto | discriminate].
  - apply rep_inv in Hrun. destruct Hrun as (w & s' & _ & _ & Hk). eauto.
  - destruct (IH1 _ _ _ _ _ Hg Hrun) as (pos' & s' & g' & Hg' & Hrun'). eauto.
  - destruct (run r1 pos s g k) as [m' |] eqn:Hr; [| eauto].
    injection Hrun as ->. eauto.
  - destruct (IH1 _ _ _ _ _ Hg Hrun) as (pos' & s' & g' & Hg' & Hk).
    exists pos', s'. eexists. split; [apply Hset, Hg' | exact Hk].
  - apply rep_inv in Hrun. destruct Hrun as (w & s' & -> & Hw & Hk).
    replace (pos + String.length w - pos) with (String.length w) in Hk by lia.
    rewrite substring_prefix in Hk.
    eexists _, s'. eexists. split; [apply Hset; eassumption | exact Hk].
  - destruct s as [| c s]; [discriminate |].
    destruct (cls c) eqn:Hc; [| discriminate].
    replace (S pos - pos) with 1 in Hrun by lia.
    cbn [substring] in Hrun.
    replace (substring 0 0 s) with "" in Hrun by now destruct s.
    eexists _, s. eexists. split; [apply Hset; eassumption | exact Hrun].
Qed.

Lemma search_keeps (I : groups -> Prop) (re : Regexp) :
  Keeps I (Cap 0 (expr re)) -> I (repeat "" (S (numSubexp re))) ->
  forall s pos m, search re pos s = Some m -> I m.
Proof.
  intros HK H0. induction s as [| c s IH]; intros pos m H; cbn [search] in H;
    destruct (run (Cap 0 (expr re)) pos _ _ accept) as [m' |] eqn:Hr.
  - injection H as ->.
    destruct (Keeps_sound I _ HK _ _ _ _ _ H0 Hr) as (? & ? & g' & Hg' & Ha).
    now injection Ha as ->.
  - discriminate.
  - injection H as ->.
    destruct (Keeps_sound I _ HK _ _ _ _ _ H0 Hr) as (? & ? & g' & Hg' & Ha).
    now injection Ha as ->.
  - eauto.
Qed.

Lemma FindStringSubmatch_keeps (I : groups -> Prop) (re : Regexp) (s : string) :
  Keeps I (Cap 0 (expr re)) -> I (repeat "" (S (numSubexp re))) -> I [] ->
  I (FindStringSubmatch re s).
Proof.
  intros HK H0 Hnil. unfold FindStringSubmatch.
  destruct (search re 0 s) eqn:H; [| assumption].
  eapply search_keeps; eauto.
Qed.

(** The version group of [versionMatch] holds no parenthesis, and its type
    group is empty, ["*"] or ["("]. *)
Definition version_groups_ok (g : groups) : Prop :=
  all_bytes (none_of ["("; ")"]%char) (group 3 g) = true /\
  (group 2 g = "" \/ group 2 g = "*" \/ group 2 g = "(").

Lemma all_bytes_weaken (p q : ascii -> bool) (s : string) :
  (forall c, p c = true -> q c = true) ->
  all_bytes p s = true -> all_bytes q s = true.
Proof.
  intros Hpq. induction s as [| c s IH]; simpl; [auto |].
  rewrite !andb_true_iff. intros [Hc Hs]. auto.
Qed.

Lemma versionMatch_keeps : Keeps version_groups_ok (Cap 0 (expr versionMatch)).
Proof.
  assert (Hother : forall n g w, n <> 2 -> n <> 3 ->
             version_groups_ok g -> version_groups_ok (set_group n w g)).
  { intros n g w H2 H3 [Ha Hb]. unfold version_groups_ok.
    rewrite !group_set_group_other by congruence. auto. }
  apply Keeps_Cap; [| intros; apply Hother; auto; discriminate].
  cbn [expr versionMatch].
  repeat (apply Keeps_Cat; [solve [constructor] |]).
  apply Keeps_Cat.
  { apply Keeps_Cap; [constructor | intros; apply Hother; auto; discriminate]. }
  repeat (apply Keeps_Cat; [solve [constructor] |]).
  apply Keeps_Cat.
  { apply Keeps_Opt, Keeps_Cap_Chr. intros g c [Ha Hb] Hc.
    split.
    - now rewrite group_set_group_other by discriminate.
    - destruct (group_set_group_same 2 (String c "") g) as [-> | ->]; [| assumption].
      unfold one_of in Hc. simpl in Hc. rewrite orb_false_r in Hc.
      apply orb_true_iff in Hc. destruct Hc as [Hc | Hc];
        apply Ascii.eqb_eq in Hc; subst c; auto. }
  apply Keeps_Cat.
  { apply Keeps_Cap_Rep. intros g w [Ha Hb] Hw. split.
    - destruct (group_set_group_same 3 w g) as [-> | ->]; [| assumption].
      revert Hw. apply all_bytes_weaken. intros c.
      unfold none_of, one_of. simpl.
      destruct (Ascii.eqb c "("), (Ascii.eqb c ")"), (Ascii.eqb c cr), (Ascii.eqb c lf);
        simpl; congruence.
    - now rewrite group_set_group_other by discriminate. }
  repeat constructor.
Qed.

Lemma versionMatch_groups (line : string) :
  version_groups_ok (FindStringSubmatch versionMatch line).
Proof.
  apply FindStringSubmatch_keeps.
  - apply versionMatch_keeps.
  - split; [reflexivity | now left].
  - split; [reflexivity | now left].
Qed.

(** ** The documented sample lines *)

(** C7: under the status pattern, "App Name : Installed" gives the status
    "Installed" with an empty reason, and "App Name : Installed (forced)"
    gives the status "Installed" with the reason "forced". *)
Theorem status_pattern_samples :
  statusOf "App Name : Installed"
  = Some {| Status.App := "App Name"; Status.Status := "Installed";
            Status.Reason := ""; Status.Version := "" |}
  /\ statusOf "App Name : Installed (forced)"
     = Some {| Status.App := "App Name"; Status.Status := "Installed";
               Status.Reason := "forced"; Status.Version := "" |}.
Proof. split; reflexivity. Qed.

Lemma versionOf_flags (line : string) (r : AppVersion.t) :
  versionOf line = Some r ->
  AppVersion.CurrentVersion r = String.eqb (group 2 (FindStringSubmatch versionMatch line)) "*"
  /\ AppVersion.AlternateVersion r
     = String.eqb (group 2 (FindStringSubmatch versionMatch line)) "("
  /\ AppVersion.Version r = group 3 (FindStringSubmatch versionMatch line).
Proof.
  unfold versionOf.
  destruct (len_pos (FindStringSubmatch versionMatch line)); [| discriminate].
  intros H. injection H as <-. cbn.
  destruct (versionMatch_groups line) as [_ [-> | [-> | ->]]]; auto.
Qed.

(** C8: under the version pattern, "App Name : *1.2.3" gives the version
    "1.2.3" marked current and not alternate; and a matched line whose
    marker group is empty gives a record with neither flag. *)
Theorem version_pattern_current_marker :
  versionOf "App Name : *1.2.3"
  = Some {| AppVersion.App := "App Name"; AppVersion.Version := "1.2.3";
            AppVersion.CurrentVersion := true;
            AppVersion.AlternateVersion := false |}
  /\ forall line r,
      versionOf line = Some r ->
      group 2 (FindStringSubmatch versionMatch line) = "" ->
      AppVersion.CurrentVersion r = false /\ AppVersion.AlternateVersion r = false.
Proof.
  split; [reflexivity |].
  intros line r Hr Hm.
  destruct (versionOf_flags line r Hr) as (-> & -> & _).
  now rewrite Hm.
Qed.

Lemma version_pattern_current_marker_witness :
  versionOf "App Name : 2.0.0"
  = Some {| AppVersion.App := "App Name"; AppVersion.Version := "2.0.0";
            AppVersion.CurrentVersion := false;
            AppVersion.AlternateVersion := false |}
  /\ group 2 (FindStringSubmatch versionMatch "App Name : 2.0.0") = ""
  /\ AppVersion.CurrentVersion
       {| AppVersion.App := "App Name"; AppVersion.Version := "2.0.0";
          AppVersion.CurrentVersion := false;
          AppVersion.AlternateVersion := false |} = false
  /\ AppVersion.AlternateVersion
       {| AppVersion.App := "App Name"; AppVersion.Version := "2.0.0";
          AppVersion.CurrentVersion := false;
          AppVersion.AlternateVersion := false |} = false.
Proof.
  split; [reflexivity |]. split; [reflexivity |].
  apply (proj2 version_pattern_current_marker "App Name : 2.0.0");
    reflexivity.
Defined.

(** The two flags are decided by the marker group alone and never hold
    together. *)
Lemma version_flags_exclusive (line : string) (r : AppVersion.t) :
  versionOf line = Some r ->
  AppVersion.CurrentVersion r && AppVersion.AlternateVersion r = false.
Proof.
  intros Hr. destruct (versionOf_flags line r Hr) as (-> & -> & _).
  destruct (versionMatch_groups line) as [_ [-> | [-> | ->]]]; reflexivity.
Qed.

(** C6: under the audit pattern, "App Name : Installed - 1.2.3" gives an
    installed app of version "1.2.3", "App Name : Not Installed" gives an
    app that is not installed with an empty version, and on every matched
    line the app counts as installed exactly when the version text is not
    empty. *)
Theorem audit_pattern_installed :
  auditOf "App Name : Installed - 1.2.3"
  = Some {| AppAudit.App := "App Name"; AppAudit.Version := "1.2.3";
            AppAudit.Status := "Installed"; AppAudit.Installed := true |}
  /\ auditOf "App Name : Not Installed"
     = Some {| AppAudit.App := "App Name"; AppAudit.Version := "";
               AppAudit.Status := "Not Installed"; AppAudit.Installed := false |}
  /\ forall line r,
      auditOf line = Some r ->
      AppAudit.Version r = group 3 (FindStringSubmatch auditMatch line)
      /\ (AppAudit.Installed r = true <-> AppAudit.Version r <> "").
Proof.
  split; [reflexivity |]. split; [reflexivity |].
  intros line r. unfold auditOf.
  destruct (len_pos (FindStringSubmatch auditMatch line)); [| discriminate].
  intros H. injection H as <-. cbn. split; [reflexivity |].
  destruct (group 3 (FindStringSubmatch auditMatch line)); simpl; split;
    congruence.
Qed.

Lemma audit_pattern_installed_witness :
  AppAudit.Installed
    {| AppAudit.App := "App Name"; AppAudit.Version := "1.2.3";
       AppAudit.Status := "Installed"; AppAudit.Installed := true |} = true
  <-> "1.2.3" <> "".
Proof.
  apply (proj2 (proj2 audit_pattern_installed) "App Name : Installed - 1.2.3").
  reflexivity.
Defined.

(** C2 as stated fails: the version text of "App Name : (2.0.0)" is not
    "2.0.0)". *)
Lemma version_alternate_paren_counterexample :
  ~ exists r, versionOf "App Name : (2.0.0)" = Some r
              /\ AppVersion.Version r = "2.0.0)"
              /\ AppVersion.AlternateVersion r = true.
Proof.
  intros (r & Hr & Hv & _).
  vm_compute in Hr. injection Hr as <-. discriminate Hv.
Qed.

(** C2, amended: the closing parenthesis of an alternate version is matched
    outside the version group, so "App Name : (2.0.0)" gives the version
    "2.0.0" marked alternate, as "App Name : *1.2.3" gives "1.2.3"; on no
    matched line does the version text hold a parenthesis. *)
Theorem version_pattern_alternate_marker :
  versionOf "App Name : (2.0.0)"
  = Some {| AppVersion.App := "App Name"; AppVersion.Version := "2.0.0";
            AppVersion.CurrentVersion := false;
            AppVersion.AlternateVersion := true |}
  /\ versionOf "App Name : *1.2.3"
     = Some {| AppVersion.App := "App Name"; AppVersion.Version := "1.2.3";
               AppVersion.CurrentVersion := true;
               AppVersion.AlternateVersion := false |}
  /\ forall line r,
      versionOf line = Some r ->
      all_bytes (none_of ["("; ")"]%char) (AppVersion.Version r) = true.
Proof.
  split; [reflexivity |]. split; [reflexivity |].
  intros line r Hr.
  destruct (versionOf_flags line r Hr) as (_ & _ & ->).
  apply versionMatch_groups.
Qed.

Lemma version_pattern_alternate_marker_witness :
  all_bytes (none_of ["("; ")"]%char)
            (AppVersion.Version
               {| AppVersion.App := "App Name"; AppVersion.Version := "2.0.0";
                  AppVersion.CurrentVersion := false;
                  AppVersion.AlternateVersion := true |}) = true.
Proof.
  apply (proj2 (proj2 version_pattern_alternate_marker) "App Name : (2.0.0)").
  reflexivity.
Defined.

(** ** The read loop *)

Lemma cut_line_some (s line rest : string) :
  cut_line s = Some (line, rest) ->
  s = (line ++ rest)%string /\ ends_with_lf line = true /\
  String.length rest < String.length s.
Proof.
  revert line rest. induction s as [| c s IH]; intros line rest H; simpl in H.
  - discriminate.
  - destruct (Ascii.eqb c lf) eqn:Hc.
    + injection H as <- <-. simpl. rewrite Hc. auto.
    + destruct (cut_line s) as [[l r] |]; [| discriminate].
      injection H as <- <-.
      destruct (IH l r eq_refl) as (-> & Hl & Hlen).
      repeat split; [| simpl; lia].
      simpl. destruct l; [discriminate | exact Hl].
Qed.

Lemma is_EOF_false (e : error) : is_EOF e = false <-> e <> io_EOF.
Proof. destruct e; simpl; split; congruence. Qed.

(** With one unit of fuel more than there are unread bytes the loop ends:
    it sends the records of the complete lines in stream order, then closes
    the channel and breaks at the end of the stream, or returns the read
    error. *)
Lemma readLoop_spec {R : Type} (conv : string -> option R) (e : error) :
  forall fuel buf,
    String.length buf < fuel ->
    readLoop conv fuel buf e
    = Some (map Send (records conv (chunks fuel buf))
              ++ (if is_EOF e then [Close] else []),
            if is_EOF e then Break else Return e).
Proof.
  induction fuel as [| fuel IH]; intros buf Hlen; [lia |].
  cbn [readLoop chunks]. unfold ReadString.
  destruct (cut_line buf) as [[line rest] |] eqn:Hcut.
  - destruct (cut_line_some _ _ _ Hcut) as (_ & _ & Hrest).
    rewrite IH by lia. cbn [records].
    destruct (conv line); cbn [map]; now rewrite <- ?app_assoc.
  - destruct (is_EOF e); reflexivity.
Qed.

Lemma chunks_lf (fuel : nat) :
  forall buf line, In line (chunks fuel buf) -> ends_with_lf line = true.
Proof.
  induction fuel as [| fuel IH]; intros buf line H; cbn [chunks] in H.
  - destruct H.
  - destruct (cut_line buf) as [[l rest] |] eqn:Hcut; [| destruct H].
    destruct H as [<- | H]; [| eauto].
    now destruct (cut_line_some _ _ _ Hcut) as (_ & Hl & _).
Qed.

Lemma records_nil {R : Type} (conv : string -> option R) (ls : list string) :
  (forall l, In l ls -> conv l = None) -> records conv ls = [].
Proof.
  induction ls as [| l ls IH]; intros H; cbn [records]; [reflexivity |].
  rewrite (H l) by now left. apply IH. intros l' Hl'. apply H. now right.
Qed.

Lemma sent_map_Send {R : Type} (rs : list R) (tl : list (event R)) :
  sent (map Send rs ++ tl) = rs ++ sent tl.
Proof. induction rs as [| r rs IH]; simpl; [reflexivity | now rewrite IH]. Qed.

Lemma closed_map_Send {R : Type} (rs : list R) (tl : list (event R)) :
  closed (map Send rs ++ tl) = closed tl.
Proof. induction rs as [| r rs IH]; simpl; [reflexivity | exact IH]. Qed.

Lemma finish_exit_then_stderr (cmd : Cmd) : finish cmd = exit_then_stderr cmd.
Proof.
  unfold finish, exit_then_stderr.
  destruct (wait_err cmd); [reflexivity |].
  destruct (stderr_err cmd); [reflexivity |].
  now destruct (stderr cmd).
Qed.

(** ** The five verbs *)

Section Stream.
Context {R : Type} (conv : string -> option R).
Variables (c : Classic) (os : Launcher) (cmd : Cmd).
Hypothesis started : start c os = inr cmd.

(** The whole run of a started command. *)
Lemma stream_spec :
  stream conv c os
  = Some (Command (path c) (composeArgs c)
            :: map Send (records conv (complete_lines (stdout cmd)))
            ++ (if is_EOF (stdout_err cmd)
                then [Close; ReadAllStderr; Wait; Wait] else [Wait]),
          if is_EOF (stdout_err cmd)
          then exit_then_stderr cmd else Some (stdout_err cmd)).
Proof.
  unfold stream. rewrite started.
  rewrite readLoop_spec by lia. fold (complete_lines (stdout cmd)).
  rewrite <- finish_exit_then_stderr.
  destruct (is_EOF (stdout_err cmd)); now rewrite <- app_assoc.
Qed.

(** Whatever the loop body, a body that builds nothing from a line ending
    in a newline sends nothing. *)
Lemma stream_sends_nothing :
  (forall line, ends_with_lf line = true -> conv line = None) ->
  exists tr r, stream conv c os = Some (tr, r) /\ sent tr = [].
Proof.
  intros Hconv. rewrite stream_spec.
  rewrite records_nil.
  - eexists _, _. split; [reflexivity |].
    destruct (is_EOF (stdout_err cmd)); reflexivity.
  - intros l Hl. apply Hconv. eapply chunks_lf. exact Hl.
Qed.
End Stream.

Lemma stream_start_error {R : Type} (conv : string -> option R)
      (c : Classic) (os : Launcher) (err : error) :
  start c os = inl err ->
  stream conv c os = Some ([Command (path c) (composeArgs c)], Some err).
Proof. intros H. unfold stream. now rewrite H. Qed.

(** Every verb returns. *)
Lemma stream_returns {R : Type} (conv : string -> option R) (c : Classic) (os : Launcher) :
  exists tr r, stream conv c os = Some (Command (path c) (composeArgs c) :: tr, r).
Proof.
  destruct (start c os) as [err | cmd] eqn:Hs.
  - rewrite (stream_start_error conv c os err Hs). eauto.
  - rewrite (stream_spec conv c os cmd Hs). eauto.
Qed.

Lemma drained_map_Send {R : Type} (rs : list R) (tl : list (event R)) :
  drained (map Send rs ++ tl) = drained tl.
Proof. induction rs as [| r rs IH]; simpl; [reflexivity | exact IH]. Qed.

(** C3: once standard output was read to its end, [UpdateOnly] returns the
    error of the process exit whenever there is one, whatever standard error
    held and however many lines matched; the text of standard error is
    returned as one error only when the process exited cleanly, and nil only
    when, besides, standard error was empty or could not be read. *)
Theorem exit_failure_precedes_stderr (c : Classic) (os : Launcher) (cmd : Cmd) :
  start (with_updateOnly true c) os = inr cmd ->
  stdout_err cmd = io_EOF ->
  exists tr ret,
    UpdateOnly c os = Some (tr, ret)
    /\ (forall e, wait_err cmd = Some e -> ret = Some e)
    /\ (wait_err cmd = None -> stderr_err cmd = None -> stderr cmd <> "" ->
        ret = Some (errors_New (stderr cmd)))
    /\ (wait_err cmd = None -> stderr cmd = "" \/ stderr_err cmd <> None ->
        ret = None).
Proof.
  intros Hs He. unfold UpdateOnly. rewrite (stream_spec _ _ _ _ Hs), He.
  cbn [is_EOF]. eexists _, _. split; [reflexivity |].
  unfold exit_then_stderr. repeat split.
  - now intros e ->.
  - intros -> -> H. destruct (stderr cmd); [now elim H | reflexivity].
  - intros -> [-> | H]; [now destruct (stderr_err cmd) |].
    destruct (stderr_err cmd); [reflexivity | now elim H].
Qed.

Lemma exit_failure_precedes_stderr_witness :
  exists tr ret,
    UpdateOnly (Classic_at "NinitePro.exe")
               (fun _ _ => inr {| stdout := ""; stdout_err := io_EOF;
                                  stderr := "boom"; stderr_err := None;
                                  wait_err := Some (ExitError 1) |})
    = Some (tr, ret)
    /\ ret = Some (ExitError 1).
Proof.
  destruct (exit_failure_precedes_stderr
              (Classic_at "NinitePro.exe")
              (fun _ _ => inr {| stdout := ""; stdout_err := io_EOF;
                                 stderr := "boom"; stderr_err := None;
                                 wait_err := Some (ExitError 1) |})
              {| stdout := ""; stdout_err := io_EOF;
                 stderr := "boom"; stderr_err := None;
                 wait_err := Some (ExitError 1) |}
              eq_refl eq_refl) as (tr & ret & Hrun & Hexit & _).
  exists tr, ret. split; [exact Hrun | apply Hexit; reflexivity].
Defined.

(** C5: when a read of standard output fails with an error that is not the
    end of the stream, [UpdateOnly] returns that error at once: the channel
    is not closed and standard error is not read. *)
Theorem read_error_returns_without_close (c : Classic) (os : Launcher) (cmd : Cmd) :
  start (with_updateOnly true c) os = inr cmd ->
  stdout_err cmd <> io_EOF ->
  exists tr,
    UpdateOnly c os = Some (tr, Some (stdout_err cmd))
    /\ closed tr = false /\ drained tr = false.
Proof.
  intros Hs He. unfold UpdateOnly. rewrite (stream_spec _ _ _ _ Hs).
  apply is_EOF_false in He. rewrite He.
  eexists. split; [reflexivity |].
  change (closed (Command ?p ?a :: ?tr)) with (closed tr).
  change (drained (Command ?p ?a :: ?tr)) with (drained tr).
  now rewrite closed_map_Send, drained_map_Send.
Qed.

Lemma read_error_returns_without_close_witness :
  exists tr,
    UpdateOnly (Classic_at "NinitePro.exe")
               (fun _ _ => inr {| stdout := "7-Zip : OK";
                                  stdout_err := SysError "read |0: file already closed";
                                  stderr := ""; stderr_err := None;
                                  wait_err := None |})
    = Some (tr, Some (SysError "read |0: file already closed"))
    /\ closed tr = false /\ drained tr = false.
Proof.
  apply (read_error_returns_without_close
           (Classic_at "NinitePro.exe")
           (fun _ _ => inr {| stdout := "7-Zip : OK";
                              stdout_err := SysError "read |0: file already closed";
                              stderr := ""; stderr_err := None;
                              wait_err := None |})
           {| stdout := "7-Zip : OK";
              stdout_err := SysError "read |0: file already closed";
              stderr := ""; stderr_err := None; wait_err := None |}
           eq_refl).
  discriminate.
Defined.

(** No verb ever sends a record: [ReadString] leaves the newline on every
    line it returns without error, and no pattern matches a text that ends
    in a newline; the bytes after the last newline come with [io.EOF] and
    are dropped. *)
Lemma stream_never_sends {R : Type} (conv : string -> option R)
      (c : Classic) (os : Launcher) :
  (forall line, ends_with_lf line = true -> conv line = None) ->
  exists tr r, stream conv c os = Some (tr, r) /\ sent tr = [].
Proof.
  intros Hconv. destruct (start c os) as [err | cmd] eqn:Hs.
  - rewrite (stream_start_error conv c os err Hs). eauto.
  - now apply stream_sends_nothing with cmd.
Qed.

Lemma UpdateOnly_never_sends (c : Classic) (os : Launcher) :
  exists tr r, UpdateOnly c os = Some (tr, r) /\ sent tr = [].
Proof. apply stream_never_sends, statusOf_lf. Qed.

Lemma Uninstall_never_sends (c : Classic) (os : Launcher) :
  exists tr r, Uninstall c os = Some (tr, r) /\ sent tr = [].
Proof. apply stream_never_sends, statusOf_lf. Qed.

Lemma Freeze_never_sends (output : string) (locs : list string)
      (c : Classic) (os : Launcher) :
  exists tr r, Freeze output locs c os = Some (tr, r) /\ sent tr = [].
Proof. apply stream_never_sends, frozenOf_lf. Qed.

Lemma List_never_sends (c : Classic) (os : Launcher) :
  exists tr r, List_ c os = Some (tr, r) /\ sent tr = [].
Proof. apply stream_never_sends, versionOf_lf. Qed.

Lemma Audit_never_sends (c : Classic) (os : Launcher) :
  exists tr r, Audit c os = Some (tr, r) /\ sent tr = [].
Proof. apply stream_never_sends, auditOf_lf. Qed.

(** C4, on the code: the subprocess prints the line "App Name : Installed",
    which the status pattern matches, and ends cleanly; [UpdateOnly] closes
    the channel, then reads standard error, but has sent no record. *)
Theorem UpdateOnly_drops_matching_line :
  statusOf "App Name : Installed"
  = Some {| Status.App := "App Name"; Status.Status := "Installed";
            Status.Reason := ""; Status.Version := "" |}
  /\ UpdateOnly (Classic_at "NinitePro.exe")
                (fun _ _ => inr {| stdout := String.append "App Name : Installed"
                                                           (String lf "");
                                   stdout_err := io_EOF;
                                   stderr := ""; stderr_err := None;
                                   wait_err := None |})
     = Some ([Command "NinitePro.exe" ["/silent"; "."; "/updateonly"];
              Close; ReadAllStderr; Wait; Wait], None).
Proof. split; reflexivity. Qed.

(** The same output without the final newline: the line arrives together
    with [io.EOF] and is dropped as well. *)
Example UpdateOnly_drops_unterminated_line :
  UpdateOnly (Classic_at "NinitePro.exe")
             (fun _ _ => inr {| stdout := "App Name : Installed";
                                stdout_err := io_EOF;
                                stderr := ""; stderr_err := None;
                                wait_err := None |})
  = Some ([Command "NinitePro.exe" ["/silent"; "."; "/updateonly"];
           Close; ReadAllStderr; Wait; Wait], None).
Proof. reflexivity. Qed.

(** C9: the [uninstall] field does not reach the arguments: [composeArgs]
    gives the same list with the field true and false, [Uninstall] launches
    the executable with the arguments of the receiver as it was, and for a
    configuration built by the setters these are the silent-mode flag and
    the attribute flags, with no verb flag. *)
Theorem uninstall_field_has_no_effect (c : Classic) (os : Launcher) :
  composeArgs (with_uninstall true c) = composeArgs (with_uninstall false c)
  /\ (exists tr r,
        Uninstall c os = Some (Command (path c) (composeArgs c) :: tr, r))
  /\ (Built c ->
      exists tr r,
        Uninstall c os
        = Some (Command (path c) (["/silent"; "."] ++ attribute_flags c) :: tr, r)).
Proof.
  split; [reflexivity |].
  assert (H : exists tr r,
             Uninstall c os = Some (Command (path c) (composeArgs c) :: tr, r)).
  { unfold Uninstall.
    destruct (stream_returns statusOf (with_uninstall true c) os) as (tr & r & H).
    exists tr, r. exact H. }
  split; [exact H |].
  intros HB. destruct H as (tr & r & H). exists tr, r. rewrite H.
  rewrite composeArgs_ordered. unfold ordered_args, seg_silent.
  now rewrite (Built_verb_flags_nil c HB), app_nil_r.
Qed.

Lemma uninstall_field_has_no_effect_witness :
  exists tr r,
    Uninstall (Select ["7-Zip"] (Classic_at "NinitePro.exe")) (fun _ _ => inl (SysError "file not found"))
    = Some (Command "NinitePro.exe" ["/silent"; "."; "/select"; "7-Zip"] :: tr, r).
Proof.
  apply (proj2 (proj2 (uninstall_field_has_no_effect
                         (Select ["7-Zip"] (Classic_at "NinitePro.exe"))
                         (fun _ _ => inl (SysError "file not found"))))).
  apply Built_Select, Built_new.
Defined.

(** * Further properties *)

(** ** Construction *)

Lemma descend_S (Join : string -> string -> string) (n : nat) (p : string) :
  descend Join (S n) p = Join (descend Join n p) "NinitePro.exe".
Proof.
  revert p. induction n as [| n IH]; intros p; [reflexivity |].
  change (descend Join (S (S n)) p) with (descend Join (S n) (Join p "NinitePro.exe")).
  now rewrite IH.
Qed.

(** When [NewClassic] returns, it has walked down through directories only,
    and stopped at the first path that is a file, returning the
    configuration with that path and nothing else set, or at the first path
    [os.Stat] fails on, returning the zero configuration with that error. *)
Theorem NewClassic_result (Stat : string -> error + bool)
        (Join : string -> string -> string) (fuel : nat) (p : string)
        (c : Classic) (e : option error) :
  NewClassic Stat Join fuel p = Some (c, e) ->
  exists n,
    n < fuel
    /\ (forall i, i < n -> Stat (descend Join i p) = inr true)
    /\ match e with
       | None => Stat (descend Join n p) = inr false
                 /\ c = Classic_at (descend Join n p)
       | Some err => Stat (descend Join n p) = inl err /\ c = Classic_zero
       end.
Proof.
  revert p. induction fuel as [| fuel IH]; intros p H; [discriminate |].
  cbn [NewClassic] in H.
  destruct (Stat p) as [err | [|]] eqn:Hp.
  - injection H as <- <-. exists 0. repeat split; [lia | intros i Hi; lia | exact Hp].
  - destruct (IH _ H) as (n & Hn & Hdirs & Hend).
    exists (S n). split; [lia |]. split; [| exact Hend].
    intros [| i] Hi; [exact Hp | apply Hdirs; lia].
  - injection H as <- <-. exists 0. repeat split; [lia | intros i Hi; lia | exact Hp].
Qed.

Lemma NewClassic_result_witness :
  exists n,
    n < 5
    /\ (forall i, i < n ->
          (fun q => if String.eqb q "C:\ninite" then inr true
                    else if String.eqb q "C:\ninite\NinitePro.exe" then inr false
                         else inl (SysError "not found"))
            (descend (fun a b => (a ++ "\" ++ b)%string) i "C:\ninite")
          = inr true)
    /\ (if String.eqb (descend (fun a b => (a ++ "\" ++ b)%string) n "C:\ninite")
                      "C:\ninite"
        then inr true
        else if String.eqb (descend (fun a b => (a ++ "\" ++ b)%string) n "C:\ninite")
                           "C:\ninite\NinitePro.exe"
             then inr false else inl (SysError "not found")) = inr false
       /\ Classic_at "C:\ninite\NinitePro.exe"
          = Classic_at (descend (fun a b => (a ++ "\" ++ b)%string) n "C:\ninite").
Proof.
  apply (NewClassic_result
           (fun q => if String.eqb q "C:\ninite" then inr true
                     else if String.eqb q "C:\ninite\NinitePro.exe" then inr false
                          else inl (SysError "not found"))
           (fun a b => (a ++ "\" ++ b)%string)
           5 "C:\ninite" (Classic_at "C:\ninite\NinitePro.exe") None).
  reflexivity.
Defined.

(** Conversely, [NewClassic] returns as soon as the walk meets a file or an
    error: if the first [n] paths are directories and [os.Stat] does not
    report a directory at the next, [n + 1] calls are enough. *)
Theorem NewClassic_returns (Stat : string -> error + bool)
        (Join : string -> string -> string) (n fuel : nat) (p : string) :
  n < fuel ->
  (forall i, i < n -> Stat (descend Join i p) = inr true) ->
  Stat (descend Join n p) <> inr true ->
  NewClassic Stat Join fuel p
  = Some (match Stat (descend Join n p) with
          | inl err => (Classic_zero, Some err)
          | inr _ => (Classic_at (descend Join n p), None)
          end).
Proof.
  revert fuel p. induction n as [| n IH]; intros fuel p Hlt Hdirs Hend;
    (destruct fuel as [| fuel]; [lia |]); cbn [NewClassic].
  - cbn [descend] in *. destruct (Stat p) as [err | [|]]; congruence.
  - pose proof (Hdirs 0 ltac:(lia)) as H0. cbn [descend] in H0. rewrite H0.
    apply IH; [lia | | exact Hend].
    intros i Hi. apply (Hdirs (S i)). lia.
Qed.

Lemma NewClassic_returns_witness :
  NewClassic (fun q => if String.eqb q "C:\ninite" then inr true
                       else inl (SysError "not found"))
             (fun a b => (a ++ "\" ++ b)%string) 2 "C:\ninite"
  = Some (Classic_zero, Some (SysError "not found")).
Proof.
  apply (NewClassic_returns
           (fun q => if String.eqb q "C:\ninite" then inr true
                     else inl (SysError "not found"))
           (fun a b => (a ++ "\" ++ b)%string) 1 2 "C:\ninite").
  - lia.
  - intros [| i] Hi; [reflexivity | lia].
  - discriminate.
Defined.

(** ** Setter chains *)

(** No setter changes the path of the executable or any verb field. *)
Theorem Chain_keeps_path_and_verbs (c0 c : Classic) :
  Chain c0 c ->
  path c = path c0 /\ updateOnly c = updateOnly c0 /\ uninstall c = uninstall c0
  /\ freeze c = freeze c0 /\ list_ c = list_ c0.
Proof. induction 1; simpl; auto. Qed.

Lemma Chain_keeps_path_and_verbs_witness :
  path (NoCache (Select ["7-Zip"] (Locale "de" (Classic_at "NinitePro.exe"))))
  = "NinitePro.exe".
Proof.
  apply (Chain_keeps_path_and_verbs (Classic_at "NinitePro.exe")).
  apply Chain_NoCache, Chain_Select, Chain_Locale, Chain_here.
Defined.

Lemma Chain_sticky (c0 c : Classic) :
  Chain c0 c ->
  (disableShortcuts c0 = true -> disableShortcuts c = true)
  /\ (disableAutoUpdate c0 = true -> disableAutoUpdate c = true)
  /\ (allUsers c0 = true -> allUsers c = true)
  /\ (noCache c0 = true -> noCache c = true)
  /\ (cleanCache c0 = true -> cleanCache c = true).
Proof. induction 1; simpl; tauto. Qed.

Ltac in_args :=
  rewrite composeArgs_ordered;
  unfold ordered_args, attribute_flags, verb_flags;
  rewrite !in_app_iff.

(** A switch once set cannot be unset: after [DisableShortcuts],
    [DisableAutoUpdate], [AllUsers], [NoCache] or [CleanCache], every
    further chain of setters still yields the flag among the arguments. *)
Theorem switches_stay_set (c0 c : Classic) :
  (Chain (DisableShortcuts c0) c -> In "/disableshortcuts" (composeArgs c))
  /\ (Chain (DisableAutoUpdate c0) c -> In "/disableautoupdate" (composeArgs c))
  /\ (Chain (AllUsers c0) c -> In "/allusers" (composeArgs c))
  /\ (Chain (NoCache c0) c -> In "/nocache" (composeArgs c))
  /\ (Chain (CleanCache c0) c -> In "/cleancache" (composeArgs c)).
Proof.
  repeat split; intros H; apply Chain_sticky in H; simpl in H;
    destruct H as (H1 & H2 & H3 & H4 & H5); in_args.
  - unfold seg_disableshortcuts. rewrite H1 by reflexivity. simpl. tauto.
  - unfold seg_disableautoupdate. rewrite H2 by reflexivity. simpl. tauto.
  - unfold seg_allusers. rewrite H3 by reflexivity. simpl. tauto.
  - unfold seg_nocache. rewrite H4 by reflexivity. simpl. tauto.
  - unfold seg_cleancache. rewrite H5 by reflexivity. simpl. tauto.
Qed.

Lemma switches_stay_set_witness :
  In "/nocache"
     (composeArgs (Locale "de" (Select [] (NoCache (Classic_at "NinitePro.exe"))))).
Proof.
  apply (switches_stay_set (Classic_at "NinitePro.exe")).
  apply Chain_Locale, Chain_Select, Chain_here.
Defined.

(** ** Options given without a value *)

Lemma auth_set_half (u p : string) :
  u = "" \/ p = "" -> auth_set {| username := u; password := p |} = false.
Proof.
  unfold auth_set, nonempty. simpl. intros [-> | ->]; simpl; [reflexivity |].
  apply andb_false_r.
Qed.

(** Credentials with an empty user name or an empty password, and a proxy
    with an empty server or port zero, are passed over in silence: the
    arguments are those of the configuration with the option cleared. *)
Theorem half_set_options_are_dropped (c : Classic) :
  (forall u p, u = "" \/ p = "" ->
     composeArgs (ProxyAuth u p c) = composeArgs (ProxyAuth "" "" c))
  /\ (forall u p, u = "" \/ p = "" ->
        composeArgs (RemoteAuth u p c) = composeArgs (RemoteAuth "" "" c))
  /\ (forall srv prt, srv = "" \/ prt = 0%Z ->
        composeArgs (Proxy srv prt c) = composeArgs (Proxy "" 0 c)).
Proof.
  repeat split.
  - intros u p H. rewrite !composeArgs_ordered.
    unfold ordered_args, attribute_flags. f_equal. do 2 f_equal.
    change (seg_proxyauth (ProxyAuth u p c))
      with (flag_if (auth_set {| username := u; password := p |}) ["/proxyauth"; u; p]).
    now rewrite (auth_set_half u p H).
  - intros u p H. rewrite !composeArgs_ordered.
    unfold ordered_args, attribute_flags. f_equal. do 6 f_equal.
    change (seg_remoteauth (RemoteAuth u p c))
      with (flag_if (auth_set {| username := u; password := p |}) ["/remoteauth"; u; p]).
    now rewrite (auth_set_half u p H).
  - intros srv prt H. rewrite !composeArgs_ordered.
    unfold ordered_args, attribute_flags. f_equal. do 1 f_equal.
    change (seg_proxy (Proxy srv prt c))
      with (flag_if (nonempty srv && negb (prt =? 0)%Z) ["/proxy"; srv; Itoa prt]).
    destruct H as [-> | ->]; [reflexivity |].
    now rewrite andb_false_r.
Qed.

Lemma half_set_options_are_dropped_witness :
  composeArgs (ProxyAuth "admin" "" (Classic_at "NinitePro.exe"))
  = composeArgs (ProxyAuth "" "" (Classic_at "NinitePro.exe")).
Proof.
  apply (half_set_options_are_dropped (Classic_at "NinitePro.exe")).
  now right.
Defined.

(** ** What each verb launches *)

Lemma run_verb_stream (v : verb) (c : Classic) (os : Launcher) :
  exists (R : Type) (conv : string -> option R),
    (forall line, ends_with_lf line = true -> conv line = None)
    /\ run_verb v c os = forget (stream conv (prepared v c) os).
Proof.
  destruct v; cbn [run_verb prepared].
  - exists Status.t, statusOf. split; [exact statusOf_lf | reflexivity].
  - exists Status.t, statusOf. split; [exact statusOf_lf | reflexivity].
  - exists Status.t, frozenOf. split; [exact frozenOf_lf | reflexivity].
  - exists AppVersion.t, versionOf. split; [exact versionOf_lf | reflexivity].
  - exists AppAudit.t, auditOf. split; [exact auditOf_lf | reflexivity].
Qed.

Lemma erase_sends {R : Type} (rs : list R) (tl : list (event R)) :
  map erase (map Send rs ++ tl) = repeat (Send tt) (List.length rs) ++ map erase tl.
Proof. induction rs as [| r rs IH]; simpl; [reflexivity | now rewrite IH]. Qed.

(** The run of a verb whose launch succeeded. *)
Lemma run_verb_started (v : verb) (c : Classic) (os : Launcher) (cmd : Cmd) :
  start (prepared v c) os = inr cmd ->
  exists n,
    run_verb v c os
    = Some (Command (path c) (composeArgs (prepared v c))
              :: repeat (Send tt) n
              ++ (if is_EOF (stdout_err cmd)
                  then [Close; ReadAllStderr; Wait; Wait] else [Wait]),
            if is_EOF (stdout_err cmd)
            then exit_then_stderr cmd else Some (stdout_err cmd)).
Proof.
  intros Hs. destruct (run_verb_stream v c os) as (R & conv & _ & ->).
  rewrite (stream_spec conv _ os cmd Hs). cbn [forget map erase].
  rewrite erase_sends. eexists.
  replace (path (prepared v c)) with (path c) by now destruct v.
  destruct (is_EOF (stdout_err cmd)); reflexivity.
Qed.

Lemma run_verb_not_started (v : verb) (c : Classic) (os : Launcher) (err : error) :
  start (prepared v c) os = inl err ->
  run_verb v c os
  = Some ([Command (path c) (composeArgs (prepared v c))], Some err).
Proof.
  intros Hs. destruct (run_verb_stream v c os) as (R & conv & _ & ->).
  rewrite (stream_start_error conv _ os err Hs). cbn [forget map erase].
  replace (path (prepared v c)) with (path c) by now destruct v.
  reflexivity.
Qed.

(** For a configuration built by the setters, [UpdateOnly] launches with
    the attribute flags followed by [/updateonly]; [List] and [Audit] launch
    the same command, ending in [/list versions]; [Freeze] with an output
    file launches with [/freeze], the locales and the file name last. *)
Theorem verbs_launch_arguments (c : Classic) (os : Launcher) :
  Built c ->
  (exists tr r,
     run_verb VUpdateOnly c os
     = Some (Command (path c) (["/silent"; "."] ++ attribute_flags c ++ ["/updateonly"])
               :: tr, r))
  /\ (exists tr r,
        run_verb VList c os
        = Some (Command (path c)
                        (["/silent"; "."] ++ attribute_flags c ++ ["/list"; "versions"])
                  :: tr, r))
  /\ (exists tr r,
        run_verb VAudit c os
        = Some (Command (path c)
                        (["/silent"; "."] ++ attribute_flags c ++ ["/list"; "versions"])
                  :: tr, r))
  /\ (forall output locs,
        output <> "" ->
        exists tr r,
          run_verb (VFreeze output locs) c os
          = Some (Command (path c)
                          (["/silent"; "."] ++ attribute_flags c
                             ++ "/freeze" :: locs ++ [output])
                    :: tr, r)).
Proof.
  intros HB.
  destruct (Built_verbs_unset c HB) as (Hu & _ & Hf & Hl).
  assert (Hall : forall v, exists tr r,
             run_verb v c os
             = Some (Command (path c) (composeArgs (prepared v c)) :: tr, r)).
  { intros v. destruct (start (prepared v c) os) as [err | cmd] eqn:Hs.
    - rewrite (run_verb_not_started v c os err Hs). eauto.
    - destruct (run_verb_started v c os cmd Hs) as (n & ->). eauto. }
  split; [| split; [| split]].
  - destruct (Hall VUpdateOnly) as (tr & r & ->). exists tr, r.
    rewrite composeArgs_ordered.
    unfold ordered_args, verb_flags, seg_silent, seg_updateonly, seg_freeze, seg_list.
    cbn [prepared updateOnly with_updateOnly freeze list_]. now rewrite Hf, Hl.
  - destruct (Hall VList) as (tr & r & ->). exists tr, r.
    rewrite composeArgs_ordered.
    unfold ordered_args, verb_flags, seg_silent, seg_updateonly, seg_freeze, seg_list.
    cbn [prepared updateOnly with_list freeze list_]. now rewrite Hf, Hu.
  - destruct (Hall VAudit) as (tr & r & ->). exists tr, r.
    rewrite composeArgs_ordered.
    unfold ordered_args, verb_flags, seg_silent, seg_updateonly, seg_freeze, seg_list.
    cbn [prepared updateOnly with_list freeze list_]. now rewrite Hf, Hu.
  - intros output locs Ho. destruct (Hall (VFreeze output locs)) as (tr & r & ->).
    exists tr, r. rewrite composeArgs_ordered.
    unfold ordered_args, verb_flags, seg_silent, seg_updateonly, seg_freeze, seg_list.
    cbn [prepared updateOnly with_freeze freeze list_ outputFilename locales].
    apply nonempty_true in Ho. rewrite Hu, Hl, Ho. cbn [flag_if].
    rewrite app_nil_r. reflexivity.
Qed.

Lemma verbs_launch_arguments_witness :
  exists tr r,
    run_verb VUpdateOnly (Select ["7-Zip"] (Classic_at "NinitePro.exe"))
             (fun _ _ => inl (SysError "file not found"))
    = Some (Command "NinitePro.exe" ["/silent"; "."; "/select"; "7-Zip"; "/updateonly"]
              :: tr, r).
Proof.
  apply (verbs_launch_arguments (Select ["7-Zip"] (Classic_at "NinitePro.exe"))
                                (fun _ _ => inl (SysError "file not found"))).
  apply Built_Select, Built_new.
Defined.

(** [Freeze] with an empty output file name launches without [/freeze]: the
    locales are dropped and, for a configuration built by the setters, no
    verb flag is passed at all. *)
Theorem Freeze_without_output (c : Classic) (os : Launcher) (locs : list string) :
  Built c ->
  exists tr r,
    run_verb (VFreeze "" locs) c os
    = Some (Command (path c) (["/silent"; "."] ++ attribute_flags c) :: tr, r).
Proof.
  intros HB. destruct (Built_verbs_unset c HB) as (Hu & _ & _ & Hl).
  assert (Hargs : composeArgs (prepared (VFreeze "" locs) c)
                  = ["/silent"; "."] ++ attribute_flags c).
  { rewrite composeArgs_ordered.
    unfold ordered_args, verb_flags, seg_silent, seg_updateonly, seg_freeze, seg_list.
    cbn [prepared updateOnly with_freeze freeze list_ outputFilename locales].
    rewrite Hu, Hl. simpl. now rewrite app_nil_r. }
  destruct (start (prepared (VFreeze "" locs) c) os) as [err | cmd] eqn:Hs.
  - rewrite (run_verb_not_started _ c os err Hs), Hargs. eauto.
  - destruct (run_verb_started _ c os cmd Hs) as (n & ->). rewrite Hargs. eauto.
Qed.

Lemma Freeze_without_output_witness :
  exists tr r,
    run_verb (VFreeze "" ["de"; "fr"]) (AllUsers (Classic_at "NinitePro.exe"))
             (fun _ _ => inl (SysError "file not found"))
    = Some (Command "NinitePro.exe" ["/silent"; "."; "/allusers"] :: tr, r).
Proof.
  apply (Freeze_without_output (AllUsers (Classic_at "NinitePro.exe"))).
  apply Built_AllUsers, Built_new.
Defined.

(** ** How every verb runs *)

(** When the launch fails, every verb returns the launch error, having
    neither closed the channel nor waited for anything. *)
Theorem launch_failure_leaves_channel_open
        (v : verb) (c : Classic) (os : Launcher) (err : error) :
  os (path c) (composeArgs (prepared v c)) = inl err ->
  exists tr,
    run_verb v c os = Some (tr, Some err)
    /\ closes tr = 0 /\ waits tr = 0 /\ sent tr = [] /\ drained tr = false.
Proof.
  intros Hos.
  assert (Hs : start (prepared v c) os = inl err).
  { unfold start. replace (path (prepared v c)) with (path c) by now destruct v.
    exact Hos. }
  rewrite (run_verb_not_started v c os err Hs).
  eexists. split; [reflexivity |]. repeat split.
Qed.

Lemma launch_failure_leaves_channel_open_witness :
  exists tr,
    run_verb VAudit (Classic_at "NinitePro.exe")
             (fun _ _ => inl (SysError "file not found"))
    = Some (tr, Some (SysError "file not found"))
    /\ closes tr = 0 /\ waits tr = 0 /\ sent tr = [] /\ drained tr = false.
Proof.
  apply (launch_failure_leaves_channel_open
           VAudit (Classic_at "NinitePro.exe")
           (fun _ _ => inl (SysError "file not found"))).
  reflexivity.
Defined.

Lemma start_prepared (v : verb) (c : Classic) (os : Launcher) :
  start (prepared v c) os = os (path c) (composeArgs (prepared v c)).
Proof. unfold start. now destruct v. Qed.

(** At the end of standard output every verb closes the channel, then reads
    standard error, then waits, and waits once more when it returns; it
    returns the exit error first, else the text of standard error. *)
Theorem end_of_stream_order (v : verb) (c : Classic) (os : Launcher) (cmd : Cmd) :
  os (path c) (composeArgs (prepared v c)) = inr cmd ->
  stdout_err cmd = io_EOF ->
  exists n,
    run_verb v c os
    = Some (Command (path c) (composeArgs (prepared v c))
              :: repeat (Send tt) n ++ [Close; ReadAllStderr; Wait; Wait],
            exit_then_stderr cmd).
Proof.
  intros Hos He. rewrite <- start_prepared in Hos.
  destruct (run_verb_started v c os cmd Hos) as (n & ->).
  rewrite He. cbn [is_EOF]. now exists n.
Qed.

Lemma end_of_stream_order_witness :
  exists n,
    run_verb VList (Classic_at "NinitePro.exe")
             (fun _ _ => inr {| stdout := "7-Zip : 23.01"; stdout_err := io_EOF;
                                stderr := "warning"; stderr_err := None;
                                wait_err := None |})
    = Some (Command "NinitePro.exe" ["/silent"; "."; "/list"; "versions"]
              :: repeat (Send tt) n ++ [Close; ReadAllStderr; Wait; Wait],
            Some (errors_New "warning")).
Proof.
  apply (end_of_stream_order
           VList (Classic_at "NinitePro.exe")
           (fun _ _ => inr {| stdout := "7-Zip : 23.01"; stdout_err := io_EOF;
                              stderr := "warning"; stderr_err := None;
                              wait_err := None |})
           {| stdout := "7-Zip : 23.01"; stdout_err := io_EOF;
              stderr := "warning"; stderr_err := None; wait_err := None |});
    reflexivity.
Defined.

(** On a read error every verb returns it after the records sent so far,
    with the channel left open, standard error unread and one deferred
    wait. *)
Theorem read_error_order (v : verb) (c : Classic) (os : Launcher) (cmd : Cmd) :
  os (path c) (composeArgs (prepared v c)) = inr cmd ->
  stdout_err cmd <> io_EOF ->
  exists n,
    run_verb v c os
    = Some (Command (path c) (composeArgs (prepared v c))
              :: repeat (Send tt) n ++ [Wait],
            Some (stdout_err cmd)).
Proof.
  intros Hos He. rewrite <- start_prepared in Hos.
  destruct (run_verb_started v c os cmd Hos) as (n & ->).
  apply is_EOF_false in He. rewrite He. now exists n.
Qed.

Lemma read_error_order_witness :
  exists n,
    run_verb (VFreeze "out.exe" []) (Classic_at "NinitePro.exe")
             (fun _ _ => inr {| stdout := ""; stdout_err := SysError "broken pipe";
                                stderr := ""; stderr_err := None;
                                wait_err := None |})
    = Some (Command "NinitePro.exe" ["/silent"; "."; "/freeze"; "out.exe"]
              :: repeat (Send tt) n ++ [Wait],
            Some (SysError "broken pipe")).
Proof.
  apply (read_error_order
           (VFreeze "out.exe" []) (Classic_at "NinitePro.exe")
           (fun _ _ => inr {| stdout := ""; stdout_err := SysError "broken pipe";
                              stderr := ""; stderr_err := None;
                              wait_err := None |})
           {| stdout := ""; stdout_err := SysError "broken pipe";
              stderr := ""; stderr_err := None; wait_err := None |});
    [reflexivity | discriminate].
Defined.



Lemma sent_erase {R : Type} (tr : list (event R)) :
  sent (map erase tr) = map (fun _ => tt) (sent tr).
Proof.
  induction tr as [| e tr IH]; [reflexivity |].
  destruct e; simpl; now rewrite ?IH.
Qed.

(** No verb ever sends a record, whatever the subprocess prints: every line
    read without error still ends in its newline, which no pattern
    matches, and what follows the last newline is dropped. *)
Theorem no_verb_sends (v : verb) (c : Classic) (os : Launcher) :
  exists tr ret, run_verb v c os = Some (tr, ret) /\ sent tr = [].
Proof.
  destruct (run_verb_stream v c os) as (R & conv & Hconv & ->).
  destruct (stream_never_sends conv (prepared v c) os Hconv) as (tr & ret & -> & Hs).
  exists (map erase tr), ret. split; [reflexivity |].
  now rewrite sent_erase, Hs.
Qed.

(** ** More on the patterns *)

Lemma length_set_group (n : nat) (w : string) (g : groups) :
  List.length (set_group n w g) = List.length g.
Proof.
  revert n. induction g as [| x g IH]; intros n; [reflexivity |].
  destruct n; simpl; [reflexivity | now rewrite IH].
Qed.

Lemma group_set_group_hit (n : nat) (w : string) (g : groups) :
  n < List.length g -> group n (set_group n w g) = w.
Proof.
  unfold group. revert n. induction g as [| x g IH]; intros n Hn; simpl in Hn.
  - lia.
  - destruct n; simpl; [reflexivity | apply IH; lia].
Qed.

Lemma Keeps_any (I : groups -> Prop) :
  (forall n g w, I g -> I (set_group n w g)) -> forall r, Keeps I r.
Proof.
  intros HI. induction r; constructor; auto.
Qed.

(** [FindStringSubmatch] returns the nil slice or one text per group and
    one for the match: where a loop body found [len(m) > 0], the indices 1,
    2 and 3 it reads are in range. *)
Theorem submatch_indices_in_range (re : Regexp) (s : string) :
  len_pos (FindStringSubmatch re s) = true ->
  List.length (FindStringSubmatch re s) = S (numSubexp re).
Proof.
  intros Hpos.
  assert (H : (fun g => g = [] \/ List.length g = S (numSubexp re))
                (FindStringSubmatch re s)).
  { apply FindStringSubmatch_keeps.
    - apply Keeps_any. intros n g w [-> | Hg]; [now left | right].
      now rewrite length_set_group.
    - right. apply repeat_length.
    - now left. }
  destruct H as [H | H]; [| exact H].
  rewrite H in Hpos. discriminate.
Qed.

Lemma submatch_indices_in_range_witness :
  List.length (FindStringSubmatch auditMatch "7-Zip : OK - 23.01") = 4.
Proof.
  apply (submatch_indices_in_range auditMatch "7-Zip : OK - 23.01").
  reflexivity.
Defined.

Lemma rep_inv_min (cls : ascii -> bool) (k : nat -> string -> option groups) (m : groups) :
  forall s min pos,
    rep cls min pos s k = Some m ->
    exists w s', s = (w ++ s')%string /\ all_bytes cls w = true /\
                 min <= String.length w /\
                 k (pos + String.length w) s' = Some m.
Proof.
  induction s as [| c s IH]; intros min pos H; cbn [rep] in H.
  - exists "", "". rewrite Nat.add_0_r.
    destruct (Nat.eqb_spec min 0); [subst; simpl; auto | discriminate].
  - assert (Hstop : (if (min =? 0)%nat then k pos (String c s) else None) = Some m ->
                    exists w s', String c s = (w ++ s')%string /\ all_bytes cls w = true /\
                                 min <= String.length w /\
                                 k (pos + String.length w) s' = Some m).
    { intros Hs. exists "", (String c s). rewrite Nat.add_0_r.
      destruct (Nat.eqb_spec min 0); [subst; simpl; auto | discriminate]. }
    destruct (cls c) eqn:Hc; [| auto].
    destruct (rep cls (Nat.pred min) (S pos) s k) as [m' |] eqn:Hr; [| auto].
    injection H as ->.
    destruct (IH _ _ Hr) as (w & s' & -> & Hw & Hmin & Hk).
    exists (String c w), s'. cbn [append all_bytes String.length].
    rewrite Hc, Hw, Nat.add_succ_r. repeat split; [lia | exact Hk].
Qed.

(** [Triple] is sound. *)
Lemma Triple_sound (I J : groups -> Prop) (r : regex) :
  Triple I r J ->
  forall pos s g k m,
    I g -> run r pos s g k = Some m ->
    exists pos' s' g', J g' /\ k pos' s' g' = Some m.
Proof.
  induction 1 as [I | I | I cls | I min cls | I M J r1 r2 _ IH1 _ IH2
                  | I J r1 _ IH1 HIJ | I M J n r1 _ IH1 Hset
                  | I J n min cls Hset | I J n cls Hset];
    intros pos s g k m Hg Hrun; cbn [run] in Hrun.
  - destruct (pos =? 0)%nat; [eauto | discriminate].
  - destruct s; [eauto | discriminate].
  - destruct s as [| c s]; [discriminate |].
    destruct (cls c); [eauto | discriminate].
  - apply rep_inv in Hrun. destruct Hrun as (w & s' & _ & _ & Hk). eauto.
  - destruct (IH1 _ _ _ _ _ Hg Hrun) as (pos' & s' & g' & Hg' & Hrun'). eauto.
  - destruct (run r1 pos s g k) as [m' |] eqn:Hr.
    + injection Hrun as ->. eauto.
    + exists pos, s, g. split; [apply HIJ, Hg | exact Hrun].
  - destruct (IH1 _ _ _ _ _ Hg Hrun) as (pos' & s' & g' & Hg' & Hk).
    exists pos', s'. eexists. split; [apply Hset, Hg' | exact Hk].
  - apply rep_inv_min in Hrun. destruct Hrun as (w & s' & -> & Hw & Hmin & Hk).
    replace (pos + String.length w - pos) with (String.length w) in Hk by lia.
    rewrite substring_prefix in Hk.
    eexists _, s'. eexists. split; [apply Hset; eassumption | exact Hk].
  - destruct s as [| c s]; [discriminate |].
    destruct (cls c) eqn:Hc; [| discriminate].
    replace (S pos - pos) with 1 in Hrun by lia.
    cbn [substring] in Hrun.
    replace (substring 0 0 s) with "" in Hrun by now destruct s.
    eexists _, s. eexists. split; [apply Hset; eassumption | exact Hrun].
Qed.

Lemma search_triple (I J : groups -> Prop) (re : Regexp) :
  Triple I (Cap 0 (expr re)) J -> I (repeat "" (S (numSubexp re))) ->
  forall s pos m, search re pos s = Some m -> J m.
Proof.
  intros HT H0. induction s as [| c s IH]; intros pos m H; cbn [search] in H;
    destruct (run (Cap 0 (expr re)) pos _ _ accept) as [m' |] eqn:Hr.
  - injection H as ->.
    destruct (Triple_sound _ _ _ HT _ _ _ _ _ H0 Hr) as (? & ? & g' & Hg' & Ha).
    now injection Ha as ->.
  - discriminate.
  - injection H as ->.
    destruct (Triple_sound _ _ _ HT _ _ _ _ _ H0 Hr) as (? & ? & g' & Hg' & Ha).
    now injection Ha as ->.
  - eauto.
Qed.

Lemma FindStringSubmatch_triple (I J : groups -> Prop) (re : Regexp) (s : string) :
  Triple I (Cap 0 (expr re)) J -> I (repeat "" (S (numSubexp re))) ->
  len_pos (FindStringSubmatch re s) = true -> J (FindStringSubmatch re s).
Proof.
  intros HT H0. unfold FindStringSubmatch.
  destruct (search re 0 s) eqn:H; [| discriminate].
  intros _. eapply search_triple; eauto.
Qed.

(** Setting one group changes what is known of that group only. *)
Lemma hold_set0 P1 P2 P3 w g :
  groups_hold P1 P2 P3 g -> groups_hold P1 P2 P3 (set_group 0 w g).
Proof.
  intros (Hl & H1 & H2 & H3). unfold groups_hold.
  rewrite length_set_group, !group_set_group_other by discriminate. auto.
Qed.

Lemma hold_set1 P1 P1' P2 P3 w g :
  groups_hold P1 P2 P3 g -> P1' w -> groups_hold P1' P2 P3 (set_group 1 w g).
Proof.
  intros (Hl & H1 & H2 & H3) Hw. unfold groups_hold.
  split; [| split; [| split]]; rewrite ?length_set_group;
    try (rewrite group_set_group_hit by lia);
    try (rewrite group_set_group_other by discriminate); auto.
Qed.

Lemma hold_set2 P1 P2 P2' P3 w g :
  groups_hold P1 P2 P3 g -> P2' w -> groups_hold P1 P2' P3 (set_group 2 w g).
Proof.
  intros (Hl & H1 & H2 & H3) Hw. unfold groups_hold.
  split; [| split; [| split]]; rewrite ?length_set_group;
    try (rewrite group_set_group_hit by lia);
    try (rewrite group_set_group_other by discriminate); auto.
Qed.

Lemma hold_set3 P1 P2 P3 P3' w g :
  groups_hold P1 P2 P3 g -> P3' w -> groups_hold P1 P2 P3' (set_group 3 w g).
Proof.
  intros (Hl & H1 & H2 & H3) Hw. unfold groups_hold.
  split; [| split; [| split]]; rewrite ?length_set_group;
    try (rewrite group_set_group_hit by lia);
    try (rewrite group_set_group_other by discriminate); auto.
Qed.

Lemma text_of_class (cls : ascii -> bool) (w : string) :
  all_bytes cls w = true -> 1 <= String.length w ->
  all_bytes cls w = true /\ w <> "".
Proof. intros Hw Hl. split; [exact Hw | destruct w; [simpl in Hl; lia | discriminate]]. Qed.

Ltac triple_skip :=
  repeat (eapply Triple_Cat;
          [solve [apply Triple_Bol | apply Triple_Eot | apply Triple_Chr
                 | apply Triple_Rep] |]).

Lemma statusMatch_triple :
  Triple (groups_hold any_text any_text no_lf) (Cap 0 (expr statusMatch))
         (groups_hold app_text plain_text no_lf).
Proof.
  apply (Triple_Cap _ (groups_hold app_text plain_text no_lf));
    [| intros g w H; apply hold_set0, H].
  cbn [expr statusMatch]. triple_skip.
  eapply Triple_Cat.
  { apply (Triple_Cap_Rep _ (groups_hold app_text any_text no_lf)).
    intros g w Hg Hw Hl. eapply hold_set1; [exact Hg | now apply text_of_class]. }
  triple_skip.
  eapply Triple_Cat.
  { apply (Triple_Cap_Rep _ (groups_hold app_text plain_text no_lf)).
    intros g w Hg Hw Hl. eapply hold_set2; [exact Hg | now apply text_of_class]. }
  eapply Triple_Cat; [| apply Triple_Eot].
  apply Triple_Opt; [| auto].
  triple_skip.
  eapply Triple_Cat; [| apply Triple_Chr].
  apply Triple_Cap_Rep. intros g w Hg Hw _. eapply hold_set3; [exact Hg | exact Hw].
Qed.

Lemma statusMatch_groups (line : string) :
  len_pos (FindStringSubmatch statusMatch line) = true ->
  groups_hold app_text plain_text no_lf (FindStringSubmatch statusMatch line).
Proof.
  apply FindStringSubmatch_triple with (I := groups_hold any_text any_text no_lf).
  - exact statusMatch_triple.
  - repeat split.
Qed.

(** Every record built by the loop bodies of [UpdateOnly], [Uninstall] and
    [Freeze] names an app: the app text is not empty and holds no colon,
    carriage return or newline; the status text (the version text for
    [Freeze]) is not empty and holds no parenthesis, carriage return or
    newline; the reason holds no newline. *)
Theorem status_records_well_formed (line : string) :
  (forall r, statusOf line = Some r ->
     app_text (Status.App r) /\ plain_text (Status.Status r)
     /\ no_lf (Status.Reason r) /\ Status.Version r = "")
  /\ (forall r, frozenOf line = Some r ->
        app_text (Status.App r) /\ plain_text (Status.Version r)
        /\ Status.Status r = "" /\ Status.Reason r = "").
Proof.
  unfold statusOf, frozenOf.
  destruct (len_pos (FindStringSubmatch statusMatch line)) eqn:Hm;
    [| split; intros r H; discriminate].
  destruct (statusMatch_groups line Hm) as (_ & H1 & H2 & H3).
  split; intros r H; injection H as <-; cbn; auto.
Qed.

Lemma status_records_well_formed_witness :
  app_text "7-Zip" /\ plain_text "OK" /\ no_lf "up to date" /\ "" = "".
Proof.
  apply (proj1 (status_records_well_formed "7-Zip : OK (up to date)")
               {| Status.App := "7-Zip"; Status.Status := "OK";
                  Status.Reason := "up to date"; Status.Version := "" |}).
  reflexivity.
Defined.

Lemma versionMatch_triple :
  Triple (groups_hold any_text marker_text any_text) (Cap 0 (expr versionMatch))
         (groups_hold app_text marker_text plain_text).
Proof.
  apply (Triple_Cap _ (groups_hold app_text marker_text plain_text));
    [| intros g w H; apply hold_set0, H].
  cbn [expr versionMatch]. triple_skip.
  eapply Triple_Cat.
  { apply (Triple_Cap_Rep _ (groups_hold app_text marker_text any_text)).
    intros g w Hg Hw Hl. eapply hold_set1; [exact Hg | now apply text_of_class]. }
  triple_skip.
  apply (Triple_Cat _ (groups_hold app_text marker_text any_text)).
  { apply Triple_Opt; [| auto].
    apply Triple_Cap_Chr. intros g c Hg Hc. eapply hold_set2; [exact Hg |].
    unfold one_of in Hc. simpl in Hc. rewrite orb_false_r in Hc.
    apply orb_true_iff in Hc. unfold marker_text.
    destruct Hc as [Hc | Hc]; apply Ascii.eqb_eq in Hc; subst c; auto. }
  eapply Triple_Cat.
  { apply (Triple_Cap_Rep _ (groups_hold app_text marker_text plain_text)).
    intros g w Hg Hw Hl. eapply hold_set3; [exact Hg | now apply text_of_class]. }
  eapply Triple_Cat; [| apply Triple_Eot].
  apply Triple_Opt; [apply Triple_Chr | auto].
Qed.

(** Every record built by the loop body of [List] has a non-empty app text
    without colon, carriage return or newline and a non-empty version text
    without parenthesis, carriage return or newline, and is never marked
    both current and alternate. *)
Theorem version_records_well_formed (line : string) (r : AppVersion.t) :
  versionOf line = Some r ->
  app_text (AppVersion.App r) /\ plain_text (AppVersion.Version r)
  /\ (AppVersion.CurrentVersion r = true -> AppVersion.AlternateVersion r = false).
Proof.
  unfold versionOf.
  destruct (len_pos (FindStringSubmatch versionMatch line)) eqn:Hm; [| discriminate].
  assert (H : groups_hold app_text marker_text plain_text
                          (FindStringSubmatch versionMatch line)).
  { apply FindStringSubmatch_triple
      with (I := groups_hold any_text marker_text any_text);
      [exact versionMatch_triple | | exact Hm].
    repeat split. now left. }
  destruct H as (_ & H1 & _ & H3).
  intros Hr. injection Hr as <-. cbn. repeat split; try apply H1; try apply H3.
  intros Hc. now rewrite Hc.
Qed.

Lemma version_records_well_formed_witness :
  app_text "7-Zip" /\ plain_text "23.01" /\ (true = true -> false = false).
Proof.
  apply (version_records_well_formed
           "7-Zip : *23.01"
           {| AppVersion.App := "7-Zip"; AppVersion.Version := "23.01";
              AppVersion.CurrentVersion := true;
              AppVersion.AlternateVersion := false |}).
  reflexivity.
Defined.

Lemma auditMatch_triple :
  Triple (groups_hold any_text any_text no_lf) (Cap 0 (expr auditMatch))
         (groups_hold app_text audit_text no_lf).
Proof.
  apply (Triple_Cap _ (groups_hold app_text audit_text no_lf));
    [| intros g w H; apply hold_set0, H].
  cbn [expr auditMatch]. triple_skip.
  eapply Triple_Cat.
  { apply (Triple_Cap_Rep _ (groups_hold app_text any_text no_lf)).
    intros g w Hg Hw Hl. eapply hold_set1; [exact Hg | now apply text_of_class]. }
  triple_skip.
  eapply Triple_Cat.
  { apply (Triple_Cap_Rep _ (groups_hold app_text audit_text no_lf)).
    intros g w Hg Hw Hl. eapply hold_set2; [exact Hg | now apply text_of_class]. }
  eapply Triple_Cat; [| apply Triple_Eot].
  apply Triple_Opt; [| auto].
  triple_skip.
  apply Triple_Cap_Rep. intros g w Hg Hw _. eapply hold_set3; [exact Hg | exact Hw].
Qed.

(** Every record built by the loop body of [Audit] has a non-empty app text
    without colon, carriage return or newline, a non-empty status text
    without parenthesis, hyphen, carriage return or newline, and a version
    text without newline that is empty exactly when the app is reported as
    not installed. *)
Theorem audit_records_well_formed (line : string) (r : AppAudit.t) :
  auditOf line = Some r ->
  app_text (AppAudit.App r) /\ audit_text (AppAudit.Status r)
  /\ no_lf (AppAudit.Version r)
  /\ (AppAudit.Installed r = false <-> AppAudit.Version r = "").
Proof.
  unfold auditOf.
  destruct (len_pos (FindStringSubmatch auditMatch line)) eqn:Hm; [| discriminate].
  assert (H : groups_hold app_text audit_text no_lf
                          (FindStringSubmatch auditMatch line)).
  { apply FindStringSubmatch_triple
      with (I := groups_hold any_text any_text no_lf);
      [exact auditMatch_triple | | exact Hm].
    repeat split. }
  destruct H as (_ & H1 & H2 & H3).
  intros Hr. injection Hr as <-. cbn. repeat split; try apply H1; try apply H2; auto.
  - destruct (group 3 (FindStringSubmatch auditMatch line)); simpl; congruence.
  - intros ->. reflexivity.
Qed.

Lemma audit_records_well_formed_witness :
  app_text "7-Zip" /\ audit_text "Update" /\ no_lf "22.00 to 23.01"
  /\ (true = false <-> "22.00 to 23.01" = "").
Proof.
  apply (audit_records_well_formed
           "7-Zip : Update - 22.00 to 23.01"
           {| AppAudit.App := "7-Zip"; AppAudit.Version := "22.00 to 23.01";
              AppAudit.Status := "Update"; AppAudit.Installed := true |}).
  reflexivity.
Defined.

(** ** Lines without a colon *)

Lemma has_byte_app (p : ascii -> bool) (a b : string) :
  has_byte p (a ++ b)%string = has_byte p a || has_byte p b.
Proof.
  induction a as [| c a IH]; simpl; [reflexivity |].
  now rewrite IH, orb_assoc.
Qed.

Lemma append_assoc (a b c : string) : ((a ++ b) ++ c = a ++ (b ++ c))%string.
Proof. induction a as [| x a IH]; simpl; [reflexivity | now rewrite IH]. Qed.

(** A match consumes a prefix of the text it is run on. *)
Lemma run_splits (r : regex) :
  forall pos s g k m,
    run r pos s g k = Some m ->
    exists pos' s' g' w, s = (w ++ s')%string /\ k pos' s' g' = Some m.
Proof.
  induction r as [| | cls | min cls | r1 IH1 r2 IH2 | r1 IH1 | n r1 IH1];
    intros pos s g k m Hrun; cbn [run] in Hrun.
  - destruct (pos =? 0)%nat; [| discriminate]. exists pos, s, g, "". auto.
  - destruct s; [| discriminate]. exists pos, "", g, "". auto.
  - destruct s as [| c s]; [discriminate |].
    destruct (cls c); [| discriminate].
    exists (S pos), s, g, (String c ""). auto.
  - apply rep_inv in Hrun. destruct Hrun as (w & s' & -> & _ & Hk).
    exists (pos + String.length w), s', g, w. auto.
  - destruct (IH1 _ _ _ _ _ Hrun) as (p1 & s1 & g1 & w1 & -> & H1).
    destruct (IH2 _ _ _ _ _ H1) as (p2 & s2 & g2 & w2 & -> & H2).
    exists p2, s2, g2, (w1 ++ w2)%string. split; [| exact H2].
    now rewrite append_assoc.
  - destruct (run r1 pos s g k) as [m' |] eqn:Hr.
    + injection Hrun as ->. eauto.
    + exists pos, s, g, "". auto.
  - destruct (IH1 _ _ _ _ _ Hrun) as (p1 & s1 & g1 & w1 & -> & H1).
    eexists p1, s1, _, w1. split; [reflexivity | exact H1].
Qed.

(** [Takes] is sound. *)
Lemma Takes_sound (p : ascii -> bool) (r : regex) :
  Takes p r ->
  forall pos s g k m,
    run r pos s g k = Some m ->
    exists pos' s' g' w,
      s = (w ++ s')%string /\ has_byte p w = true /\ k pos' s' g' = Some m.
Proof.
  induction 1 as [cls Hcls | r1 r2 _ IH | r1 r2 _ IH | n r1 _ IH];
    intros pos s g k m Hrun; cbn [run] in Hrun.
  - destruct s as [| c s]; [discriminate |].
    destruct (cls c) eqn:Hc; [| discriminate].
    exists (S pos), s, g, (String c ""). repeat split; [| exact Hrun].
    simpl. now rewrite (Hcls c Hc).
  - destruct (IH _ _ _ _ _ Hrun) as (p1 & s1 & g1 & w1 & -> & Hb & H1).
    destruct (run_splits _ _ _ _ _ _ H1) as (p2 & s2 & g2 & w2 & -> & H2).
    exists p2, s2, g2, (w1 ++ w2)%string. repeat split; [| | exact H2].
    + now rewrite append_assoc.
    + now rewrite has_byte_app, Hb.
  - destruct (run_splits _ _ _ _ _ _ Hrun) as (p1 & s1 & g1 & w1 & -> & H1).
    destruct (IH _ _ _ _ _ H1) as (p2 & s2 & g2 & w2 & -> & Hb & H2).
    exists p2, s2, g2, (w1 ++ w2)%string. repeat split; [| | exact H2].
    + now rewrite append_assoc.
    + rewrite has_byte_app, Hb. apply orb_true_r.
  - destruct (IH _ _ _ _ _ Hrun) as (p1 & s1 & g1 & w1 & -> & Hb & H1).
    eexists p1, s1, _, w1. repeat split; [exact Hb | exact H1].
Qed.

Lemma search_takes (p : ascii -> bool) (re : Regexp) :
  Takes p (expr re) ->
  forall s pos m, search re pos s = Some m -> has_byte p s = true.
Proof.
  intros HT. induction s as [| c s IH]; intros pos m H; cbn [search] in H;
    destruct (run (Cap 0 (expr re)) pos _ _ accept) as [m' |] eqn:Hr.
  - destruct (Takes_sound p _ (Takes_Cap p 0 _ HT) _ _ _ _ _ Hr)
      as (? & s' & ? & w & Hs & Hb & _).
    rewrite Hs, has_byte_app, Hb. reflexivity.
  - discriminate.
  - destruct (Takes_sound p _ (Takes_Cap p 0 _ HT) _ _ _ _ _ Hr)
      as (? & s' & ? & w & Hs & Hb & _).
    rewrite Hs, has_byte_app, Hb. reflexivity.
  - simpl. rewrite (IH _ _ H). apply orb_true_r.
Qed.

Lemma Takes_colon_status : Takes (one_of [":"%char]) (expr statusMatch).
Proof. cbn. do 4 apply Takes_Cat_r. apply Takes_Cat_l, Takes_Chr. auto. Qed.

Lemma Takes_colon_version : Takes (one_of [":"%char]) (expr versionMatch).
Proof. cbn. do 4 apply Takes_Cat_r. apply Takes_Cat_l, Takes_Chr. auto. Qed.

Lemma Takes_colon_audit : Takes (one_of [":"%char]) (expr auditMatch).
Proof. cbn. do 4 apply Takes_Cat_r. apply Takes_Cat_l, Takes_Chr. auto. Qed.

Lemma no_colon_no_submatch (re : Regexp) (line : string) :
  Takes (one_of [":"%char]) (expr re) ->
  has_byte (one_of [":"%char]) line = false ->
  FindStringSubmatch re line = [].
Proof.
  intros HT Hline. unfold FindStringSubmatch.
  destruct (search re 0 line) as [m |] eqn:Hs; [| reflexivity].
  rewrite (search_takes _ re HT _ _ _ Hs) in Hline. discriminate.
Qed.

(** A line without a colon gives no record in any loop body. *)
Theorem line_without_colon_is_skipped (line : string) :
  has_byte (one_of [":"%char]) line = false ->
  statusOf line = None /\ frozenOf line = None
  /\ versionOf line = None /\ auditOf line = None.
Proof.
  intros H. unfold statusOf, frozenOf, versionOf, auditOf.
  rewrite (no_colon_no_submatch statusMatch line Takes_colon_status H).
  rewrite (no_colon_no_submatch versionMatch line Takes_colon_version H).
  rewrite (no_colon_no_submatch auditMatch line Takes_colon_audit H).
  auto.
Qed.

Lemma line_without_colon_is_skipped_witness :
  statusOf "Installing 7-Zip..." = None
  /\ frozenOf "Installing 7-Zip..." = None
  /\ versionOf "Installing 7-Zip..." = None
  /\ auditOf "Installing 7-Zip..." = None.
Proof.
  apply (line_without_colon_is_skipped "Installing 7-Zip...").
  reflexivity.
Defined.
